(** * rsinc: a shallow embedding of the reconciliation engine

    The development follows the two generations of the program that live
    side by side in the repository:

    - [Sinc]  : the stand-alone script [sinc.py] (differ, packed baseline
                tree, reconciler [sync], and the per-folder main loop);
    - [Rsinc] : the entry point [rsinc/__main__.py] (the dry/live pass
                decision of [main]).

    Python dictionaries are finite maps ([gmap]), Python sets are finite
    sets ([gset]), Python integers are [Z], exceptions are an explicit
    result type, and module-level mutable variables are fields of a state
    record threaded by a small state-and-exception monad. *)

From stdpp Require Import gmap strings list fin_maps sorting pretty.
From Stdlib Require Import ZArith Lia Ascii.

Set Warnings "-register-all,-clear-no-such-hyp".
Set Default Proof Using "Type".

(* ===================================================================== *)
(** * Part I. Definitions                                                  *)
(* ===================================================================== *)

(** ** Python primitives used by both programs *)

Module Py.

(** The exceptions the modelled code can raise. *)
Inductive exn := KeyError | IndexError | TypeError.

#[global] Instance exn_eq_dec : EqDecision exn.
Proof. solve_decision. Defined.

(** The outcome of evaluating an expression: a value or a raised
    exception. *)
Inductive Result (A : Type) : Type :=
| Ok (a : A)
| Raise (e : exn).
Arguments Ok {A} a.
Arguments Raise {A} e.

#[global] Instance Result_ret : MRet Result := @Ok.
#[global] Instance Result_bind : MBind Result := λ A B f r,
  match r with Ok a => f a | Raise e => Raise e end.

(** [d[k]] on a dictionary. *)
Definition getitem {V} (d : gmap string V) (k : string) : Result V :=
  match d !! k with Some v => Ok v | None => Raise KeyError end.

(** [l[i]] on a list, for the non-negative indices the program uses. *)
Definition index {V} (l : list V) (i : nat) : Result V :=
  match l !! i with Some v => Ok v | None => Raise IndexError end.

Definition slash : ascii := "/"%char.

(** [s.split('/')]. The result always has at least one component. *)
Fixpoint split (s : string) : list string :=
  match s with
  | EmptyString => [EmptyString]
  | String c s' =>
      if decide (c = slash) then EmptyString :: split s'
      else match split s' with
           | h :: t => String c h :: t
           | [] => [String c EmptyString]
           end
  end.

(** ['/'.join(l)]. *)
Fixpoint join (l : list string) : string :=
  match l with
  | [] => EmptyString
  | [x] => x
  | x :: l' => x +:+ "/" +:+ join l'
  end.

(** [s.translate(str.maketrans("/", '_'))]. *)
Fixpoint translate_swap (s : string) : string :=
  match s with
  | EmptyString => EmptyString
  | String c s' =>
      String (if decide (c = slash) then "_"%char else c) (translate_swap s')
  end.

(** [c.lower()] on one ASCII character; bytes outside [A-Z] are kept. *)
Definition lower_ascii (c : ascii) : ascii :=
  let n := nat_of_ascii c in
  if bool_decide (65 ≤ n ≤ 90)%nat then ascii_of_nat (n + 32) else c.

(** [s.lower()], on ASCII strings. *)
Fixpoint lower (s : string) : string :=
  match s with
  | EmptyString => EmptyString
  | String c s' => String (lower_ascii c) (lower s')
  end.

(** [sorted(X)] for a set of strings: ascending byte-wise order. *)
Definition sorted (X : gset string) : list string :=
  merge_sort String.le (elements X).

(** Python values that reach the [+] of the dry-run report. *)
Inductive value := VInt (n : Z) | VStr (s : string).

(** [a + b]: defined on two integers and on two strings only. *)
Definition add (a b : value) : Result value :=
  match a, b with
  | VInt x, VInt y => Ok (VInt (x + y))
  | VStr x, VStr y => Ok (VStr (x +:+ y))
  | _, _ => Raise TypeError
  end.

End Py.

Import Py.

(** ** [sinc.py] *)

Module Sinc.

(** *** Data model *)

(** One entry of a listing: [{'bytesize': size, 'datetime': date_time}]. *)
Record FileState := { bytesize : Z; datetime : Z }.

#[global] Instance FileState_eq_dec : EqDecision FileState.
Proof. solve_decision. Defined.

(** A packed dictionary [{'fold': {...}, 'file': {...}}]. *)
Inductive nest := Nest { fold : gmap string nest; file : gmap string FileState }.

(** [class data]. The change classes stored in [d_dif] are the literals
    0 (unchanged), 1 (modified), 2 (deleted) and 3 (created). *)
Record data := {
  data_path : string;
  d_old : gmap string FileState;
  d_tmp : gmap string FileState;
  d_dif : gmap string nat;
  s_old : gset string;
  s_tmp : gset string;
  s_dif : gset string;
  s_low : gset string
}.

(** [class direct]. *)
Record direct := { lcl : data; rmt : data; direct_path : string }.

Definition BASE_R : string := "onedrive:".
Definition BASE_L : string := "/home/conor/".
Definition CASE_INSENSATIVE : bool := true.

(** [data.__init__(self, base, arg)]. *)
Definition data_init (base arg : string) : data :=
  {| data_path := base +:+ arg +:+ "/";
     d_old := ∅; d_tmp := ∅; d_dif := ∅;
     s_old := ∅; s_tmp := ∅; s_dif := ∅; s_low := ∅ |}.

(** [direct.__init__(self, arg)]. *)
Definition direct_init (arg : string) : direct :=
  {| lcl := data_init BASE_L arg; rmt := data_init BASE_R arg;
     direct_path := arg |}.

Definition with_d_tmp (d : gmap string FileState) (self : data) : data :=
  {| data_path := data_path self; d_old := d_old self; d_tmp := d;
     d_dif := d_dif self; s_old := s_old self; s_tmp := s_tmp self;
     s_dif := s_dif self; s_low := s_low self |}.

Definition with_d_old (d : gmap string FileState) (self : data) : data :=
  {| data_path := data_path self; d_old := d; d_tmp := d_tmp self;
     d_dif := d_dif self; s_old := s_old self; s_tmp := s_tmp self;
     s_dif := s_dif self; s_low := s_low self |}.

(** *** Differ *)

(** The body of [for key in inter] in [data.build_dif]. *)
Definition classify_inter (self : data) (key : string)
    (dif : gmap string nat) : Result (gmap string nat) :=
  o ← getitem (d_old self) key;
  t ← getitem (d_tmp self) key;
  if bool_decide (bytesize o ≠ bytesize t) then Ok (<[key := 1%nat]> dif)
  else if bool_decide (datetime t > datetime o)%Z then Ok (<[key := 1%nat]> dif)
  else Ok (<[key := 0%nat]> dif).

(** A [for] loop whose body updates an accumulator and may raise. *)
Fixpoint for_keys {S} (keys : list string) (body : string → S → Result S)
    (s : S) : Result S :=
  match keys with
  | [] => Ok s
  | key :: keys' => s' ← body key s; for_keys keys' body s'
  end.

(** [data.build_dif(self)]. *)
Definition build_dif (self : data) : Result data :=
  let s_old' := dom (d_old self) in
  let s_tmp' := dom (d_tmp self) in
  let s_low' : gset string := set_map lower s_tmp' in
  let deleted := s_old' ∖ s_tmp' in
  let created := s_tmp' ∖ s_old' in
  let inter := s_tmp' ∩ s_old' in
  let dif1 := set_fold (λ key dif, <[key := 3%nat]> dif) (d_dif self) created in
  let dif2 := set_fold (λ key dif, <[key := 2%nat]> dif) dif1 deleted in
  dif3 ← for_keys (elements inter) (classify_inter self) dif2;
  Ok {| data_path := data_path self; d_old := d_old self;
        d_tmp := d_tmp self; d_dif := dif3;
        s_old := s_old'; s_tmp := s_tmp'; s_dif := dom dif3;
        s_low := s_low' |}.

(** [direct.build_dif(self)]. *)
Definition direct_build_dif (self : direct) : Result direct :=
  l ← build_dif (lcl self);
  r ← build_dif (rmt self);
  Ok {| lcl := l; rmt := r; direct_path := direct_path self |}.

(** *** Packed dictionaries *)

(** [empty()]. *)
Definition empty : nest := Nest ∅ ∅.

(** [insert(nest, chain)], where [chain] is [names + [v]]. In-place
    mutation of [nest] becomes the returned tree. With no name left,
    [chain[0]] is the (unhashable) entry itself. *)
Fixpoint insert (n : nest) (names : list string) (v : FileState) : Result nest :=
  match names with
  | [] => Raise TypeError
  | [c] => Ok (Nest (fold n) (<[c := v]> (file n)))
  | c :: rest =>
      let child := default empty (fold n !! c) in
      child' ← insert child rest v;
      Ok (Nest (<[c := child']> (fold n)) (file n))
  end.

(** [pack(d)]. *)
Definition pack (d : gmap string FileState) : Result nest :=
  map_fold (λ k v acc, n ← acc; insert n (split k) v) (Ok empty) d.

(** [unpack(nest, d, path)] with all three arguments given. *)
Fixpoint unpack (n : nest) (d : gmap string FileState) (path : string)
    : gmap string FileState :=
  let d1 := map_fold (λ k v d, <[path +:+ k := v]> d) d (file n) in
  map_fold (λ k v d, unpack v d (path +:+ k +:+ "/")) d1 (fold n).

(** [_get_branch(nest, chain)]. *)
Fixpoint _get_branch (n : nest) (chain : list string) : Result nest :=
  match chain with
  | [] => Ok n
  | c :: rest => n' ← getitem (fold n) c; _get_branch n' rest
  end.

(** [get_branch(nest, path)]. *)
Definition get_branch (n : nest) (path : string) : Result nest :=
  _get_branch n (split path).

(** [_merge(nest, chain, new)]; the mutated [nest] is returned. *)
Fixpoint _merge (n : nest) (chain : list string) (new : nest) : Result nest :=
  match chain with
  | [] => Raise IndexError
  | [c] => Ok (Nest (<[c := new]> (fold n)) (file n))
  | c :: rest =>
      let child := default empty (fold n !! c) in
      child' ← _merge child rest new;
      Ok (Nest (<[c := child']> (fold n)) (file n))
  end.

(** [merge(nest, path, new)]. *)
Definition merge (n : nest) (path : string) (new : nest) : Result nest :=
  _merge n (split path) new.

(** [_have(nest, chain)]; the integers 1 and 0 it returns are only ever
    tested for truth, so they are [true] and [false] here. *)
Fixpoint _have (n : nest) (chain : list string) : Result bool :=
  match chain with
  | [] => Raise IndexError
  | [c] => Ok (bool_decide (is_Some (fold n !! c)))
  | c :: rest =>
      match fold n !! c with
      | Some n' => _have n' rest
      | None => Ok false
      end
  end.

(** [have(master, path)]. *)
Definition have (master : nest) (path : string) : Result bool :=
  _have master (split path).

(** [_get_min(nest, chain, min_chain)]. *)
Fixpoint _get_min (n : nest) (chain min_chain : list string)
    : Result (list string) :=
  match chain with
  | [] => Raise IndexError
  | [_] => Ok min_chain
  | c :: ((c1 :: _) as rest) =>
      match fold n !! c with
      | None => Ok min_chain
      | Some n' => _get_min n' rest (min_chain ++ [c1])
      end
  end.

(** [get_min(master, path)]. *)
Definition get_min (master : nest) (path : string) : Result string :=
  let chain := split path in
  c0 ← index chain 0;
  min_chain ← _get_min master chain [c0];
  Ok (join min_chain).

(** *** Module-level state and effects *)

Inductive colour := ylw | cyn | mgt | red | grn.

#[global] Instance colour_eq_dec : EqDecision colour.
Proof. solve_decision. Defined.

(** A string built from plain and coloured pieces. *)
Definition cstr : Type := list (option colour * string).
Definition plain (s : string) : cstr := [(None, s)].
Definition col (c : colour) (s : string) : cstr := [(Some c, s)].

(** What is written by [json.dump]. *)
Inductive json := JEmptyDict | JNest (n : nest).

(** The observable actions of the script, in the order they happen. *)
Inductive event :=
| Stdout (args : list cstr) (ending : string)  (* print(..., end=ending) *)
| Subprocess (argv : list string)              (* subprocess.run(argv) *)
| FileWrite (name : string) (content : json)   (* json.dump to a file *)
| Stdin (prompt : string).                     (* input(prompt) *)

(** The module-level variables that the functions read and assign.
    [unpack_d] is the dictionary bound to the default argument [d={}] of
    [unpack]: it is created once, when [unpack] is defined. *)
Record globals := {
  dry_run : bool;
  verbosity : bool;
  recover : bool;
  auto : bool;
  skip : bool;
  first_run : bool;
  counter : Z;
  total_jobs : Z;
  master : nest;
  unpack_d : gmap string FileState;
  trace : list event
}.

Definition set_dry_run (b : bool) (g : globals) : globals :=
  {| dry_run := b; verbosity := verbosity g; recover := recover g;
     auto := auto g; skip := skip g; first_run := first_run g;
     counter := counter g; total_jobs := total_jobs g; master := master g;
     unpack_d := unpack_d g; trace := trace g |}.

Definition set_recover (b : bool) (g : globals) : globals :=
  {| dry_run := dry_run g; verbosity := verbosity g; recover := b;
     auto := auto g; skip := skip g; first_run := first_run g;
     counter := counter g; total_jobs := total_jobs g; master := master g;
     unpack_d := unpack_d g; trace := trace g |}.

Definition set_first_run (b : bool) (g : globals) : globals :=
  {| dry_run := dry_run g; verbosity := verbosity g; recover := recover g;
     auto := auto g; skip := skip g; first_run := b;
     counter := counter g; total_jobs := total_jobs g; master := master g;
     unpack_d := unpack_d g; trace := trace g |}.

Definition set_counter (c : Z) (g : globals) : globals :=
  {| dry_run := dry_run g; verbosity := verbosity g; recover := recover g;
     auto := auto g; skip := skip g; first_run := first_run g;
     counter := c; total_jobs := total_jobs g; master := master g;
     unpack_d := unpack_d g; trace := trace g |}.

Definition set_total_jobs (t : Z) (g : globals) : globals :=
  {| dry_run := dry_run g; verbosity := verbosity g; recover := recover g;
     auto := auto g; skip := skip g; first_run := first_run g;
     counter := counter g; total_jobs := t; master := master g;
     unpack_d := unpack_d g; trace := trace g |}.

Definition set_master (m : nest) (g : globals) : globals :=
  {| dry_run := dry_run g; verbosity := verbosity g; recover := recover g;
     auto := auto g; skip := skip g; first_run := first_run g;
     counter := counter g; total_jobs := total_jobs g; master := m;
     unpack_d := unpack_d g; trace := trace g |}.

Definition set_unpack_d (d : gmap string FileState) (g : globals) : globals :=
  {| dry_run := dry_run g; verbosity := verbosity g; recover := recover g;
     auto := auto g; skip := skip g; first_run := first_run g;
     counter := counter g; total_jobs := total_jobs g; master := master g;
     unpack_d := d; trace := trace g |}.

Definition emit (e : event) (g : globals) : globals :=
  {| dry_run := dry_run g; verbosity := verbosity g; recover := recover g;
     auto := auto g; skip := skip g; first_run := first_run g;
     counter := counter g; total_jobs := total_jobs g; master := master g;
     unpack_d := unpack_d g; trace := trace g ++ [e] |}.

(** Computations over the module state that may raise. The state reached
    when an exception is raised is kept: what was printed and run before
    it did happen. *)
Definition M (A : Type) : Type := globals → Result A * globals.

#[global] Instance M_ret : MRet M := λ A a g, (Ok a, g).
#[global] Instance M_bind : MBind M := λ A B f m g,
  match m g with
  | (Ok a, g') => f a g'
  | (Raise e, g') => (Raise e, g')
  end.

Definition lift {A} (r : Result A) : M A := λ g, (r, g).
Definition gets {A} (proj : globals → A) : M A := λ g, (Ok (proj g), g).
Definition modify (f : globals → globals) : M unit := λ g, (Ok tt, f g).
Definition skip_ : M unit := mret tt.

(** [for x in l: body(x)]. *)
Fixpoint for_each {A} (l : list A) (body : A → M unit) : M unit :=
  match l with
  | [] => skip_
  | x :: l' => body x ;; for_each l' body
  end.

Definition newline : string := String "010"%char EmptyString.

(** [print(...)] and [print(..., end=' ')]. *)
Definition print (args : list cstr) : M unit :=
  modify (emit (Stdout args newline)).
Definition print_end (args : list cstr) (ending : string) : M unit :=
  modify (emit (Stdout args ending)).

Definition run (argv : list string) : M unit :=
  modify (emit (Subprocess argv)).

(** [input(prompt)]; [answer] is the line the operator types. *)
Definition input (answer prompt : string) : M string :=
  modify (emit (Stdin prompt)) ;; mret answer.

(** [log(...)]. *)
Definition log (args : list cstr) : M unit :=
  v ← gets verbosity; if v : bool then print args else skip_.

(** [check_exist(path)]; [present] is what [os.path.exists] answers. *)
Definition check_exist (present : bool) (path : string) : M Z :=
  if present then log [plain "Checked"; plain path] ;; mret 0%Z
  else log [plain "Missing"; plain path] ;; mret 1%Z.

Definition dquote : string := String "034"%char EmptyString.

(** [qt(string)]. *)
Definition qt (s : string) : string := dquote +:+ s +:+ dquote.

(** [write(file, d)]. *)
Definition write (name : string) (d : json) : M unit :=
  dr ← gets dry_run;
  if dr : bool then skip_
  else log [plain "Writing"; plain name] ;; modify (emit (FileWrite name d)).

(** [unpack(nest)]: [d] and [path] take their defaults. The default
    dictionary is updated in place and is itself the value returned. *)
Definition unpack_default (n : nest) : M (gmap string FileState) :=
  d ← gets unpack_d;
  let d' := unpack n d "" in
  modify (set_unpack_d d') ;; mret d'.

(** *** Moving files about *)

(** ['%d/%d' % (counter, total_jobs)]. *)
Definition progress (g : globals) : string :=
  pretty (counter g) +:+ "/" +:+ pretty (total_jobs g).

Definition bump_counter : M unit :=
  modify (λ g, set_counter (counter g + 1) g).

Definition cpyR (source dest : string) : M unit :=
  bump_counter ;;
  dr ← gets dry_run;
  if dr : bool then print [col cyn "Push: " ++ plain source]
  else
    p ← gets progress;
    print [plain p ++ col cyn " Push: " ++ plain source] ;;
    run ["rclone"; "copyto"; source; dest].

Definition cpyL (dest source : string) : M unit :=
  bump_counter ;;
  dr ← gets dry_run;
  if dr : bool then print [col mgt "Pull: " ++ plain source]
  else
    p ← gets progress;
    print [plain p ++ col mgt " Pull: " ++ plain source] ;;
    run ["rclone"; "copyto"; source; dest].

Definition null (_ _ : string) : M unit := skip_.

Definition conflict (source dest : string) : M unit :=
  sk ← gets skip;
  if sk : bool then print [col red "Skip conflict: " ++ plain source]
  else
    print [col red "Conflict: " ++ plain source] ;;
    dr ← gets dry_run;
    (if dr : bool then skip_
     else
       run ["rclone"; "moveto"; source; source +:+ ".lcl_conflict"] ;;
       run ["rclone"; "moveto"; dest; dest +:+ ".rmt_conflict"]) ;;
    cpyR (source +:+ ".lcl_conflict") (dest +:+ ".lcl_conflict") ;;
    cpyL (source +:+ ".rmt_conflict") (dest +:+ ".rmt_conflict").

Definition delL (left right : string) : M unit :=
  bump_counter ;;
  dr ← gets dry_run;
  if dr : bool then print [col ylw "Delete: " ++ plain left]
  else
    p ← gets progress;
    print [plain p ++ col ylw " Delete: " ++ plain left] ;;
    run ["rclone"; "delete"; left].

Definition delR (left right : string) : M unit :=
  bump_counter ;;
  dr ← gets dry_run;
  if dr : bool then print [col ylw "Delete: " ++ plain right]
  else
    p ← gets progress;
    print [plain p ++ col ylw " Delete: " ++ plain right] ;;
    run ["rclone"; "delete"; right].

(** The table of functions indexed by local, then remote, class. *)
Definition LOGIC : list (list (string → string → M unit)) :=
  [ [null; cpyL; delL; conflict];
    [cpyR; conflict; cpyR; conflict];
    [delR; cpyL; null; cpyL];
    [conflict; conflict; cpyR; conflict] ].

(** *** The reconciler *)

(** The body of [for key in sorted(lcl_dif)]. *)
Definition sync_lcl_body (f : direct) (key : string) : M unit :=
  c ← lift (getitem (d_dif (lcl f)) key);
  if bool_decide (c ≠ 2%nat) then
    if CASE_INSENSATIVE && bool_decide (lower key ∈ s_low (rmt f)) then
      print [col red "ERROR," ++ plain " case mismatch: " ++ plain key] ;;
      print [col red "NOT," ++ plain " pushing: " ++ plain key]
    else cpyR (data_path (lcl f) +:+ key) (data_path (rmt f) +:+ key)
  else skip_.

(** The body of [for key in sorted(rmt_dif)]. *)
Definition sync_rmt_body (f : direct) (key : string) : M unit :=
  c ← lift (getitem (d_dif (rmt f)) key);
  if bool_decide (c ≠ 2%nat) then
    if CASE_INSENSATIVE && bool_decide (lower key ∈ s_low (lcl f)) then
      print [col red "ERROR," ++ plain " case mismatch: " ++ plain key] ;;
      print [col red "NOT:" ++ plain " pulling: " ++ plain key]
    else cpyL (data_path (lcl f) +:+ key) (data_path (rmt f) +:+ key)
  else skip_.

(** The body of the [for key in sorted(inter)] that follows
    [print(ylw('Running recover'))]. *)
Definition sync_recover_body (f : direct) (key : string) : M unit :=
  l ← lift (getitem (d_tmp (lcl f)) key);
  r ← lift (getitem (d_tmp (rmt f)) key);
  if bool_decide (bytesize l ≠ bytesize r) then
    if bool_decide (datetime l > datetime r)%Z then
      cpyR (data_path (lcl f) +:+ key) (data_path (rmt f) +:+ key)
    else if bool_decide (datetime l < datetime r)%Z then
      cpyL (data_path (lcl f) +:+ key) (data_path (rmt f) +:+ key)
    else skip_
  else skip_.

(** The body of the [for key in sorted(inter)] that calls [LOGIC]. *)
Definition sync_logic_body (f : direct) (key : string) : M unit :=
  lc ← lift (getitem (d_dif (lcl f)) key);
  row ← lift (index LOGIC lc);
  rc ← lift (getitem (d_dif (rmt f)) key);
  fn ← lift (index row rc);
  fn (data_path (lcl f) +:+ key) (data_path (rmt f) +:+ key).

(** [sync(f, lcl_dif, rmt_dif, inter)]. In the source the [else:] that
    introduces the [LOGIC] loop is indented under the recovery [for], not
    under [if recover:]. It is therefore the [else] clause of that [for]
    statement, which Python runs whenever the loop ends without [break]:
    here, always. *)
Definition sync (f : direct) (lcl_dif rmt_dif inter : gset string) : M unit :=
  for_each (sorted lcl_dif) (sync_lcl_body f) ;;
  for_each (sorted rmt_dif) (sync_rmt_body f) ;;
  rec ← gets recover;
  if rec : bool then
    print [col ylw "Running recover"] ;;
    for_each (sorted inter) (sync_recover_body f) ;;
    for_each (sorted inter) (sync_logic_body f)
  else skip_.

(** *** The main loop *)

(** What the outside world answers during the pass over one folder. *)
Record env := {
  tmp_exists : bool;                 (* os.path.exists(<folder>.tmp) *)
  lsl_lcl : gmap string FileState;   (* lsl(f.lcl.path) *)
  lsl_rmt : gmap string FileState;   (* lsl(f.rmt.path) *)
  lsl_min : gmap string FileState;   (* lsl(BASE_L + min_path) *)
  answer : string                    (* the reply to 'Execute? ' *)
}.

(** The dictionary [strtobool], restricted to its string keys: the keys
    [1] and [0] are integers and never equal what [input] returns. *)
Definition strtobool : gmap string bool :=
  list_to_map
    [ ("yes", true); ("ye", true); ("y", true); ("n", false); ("no", false);
      ("t", true); ("true", true); ("f", false); ("false", false);
      ("Y", true); ("N", false); ("Yes", true); ("No", false);
      (EmptyString, true) ].

Definition tmp_name (f : direct) : string :=
  translate_swap (direct_path f) +:+ ".tmp".

(** From [print('')] to the crash check; yields [min_path]. *)
Definition enter (e : env) (f : direct) : M string :=
  print [plain EmptyString] ;;
  m ← gets master;
  min_path ← lift (get_min m (direct_path f));
  h ← lift (have m (direct_path f));
  (if h : bool then
     print [col grn "Have:"; plain (qt (direct_path f) +:+ ", can sync")]
   else
     print [col ylw "Don't have:";
            plain (qt (direct_path f) +:+ ", entering first sync mode")] ;;
     modify (set_first_run true)) ;;
  x ← check_exist (tmp_exists e) (tmp_name f);
  (if bool_decide (x = 0%Z) then
     print [col red "ERROR" ++ plain ", detected crash, found a .tmp"] ;;
     modify (set_recover true)
   else skip_) ;;
  mret min_path.

(** "make and read files": both listings, then the [.tmp] marker. The
    spinner only animates the terminal and is left out. *)
Definition crawl (e : env) (f : direct) : M direct :=
  print_end [col grn "Crawling: " ++ plain (qt (direct_path f))] " " ;;
  let f' := {| lcl := with_d_tmp (lsl_lcl e) (lcl f);
               rmt := with_d_tmp (lsl_rmt e) (rmt f);
               direct_path := direct_path f |} in
  write (tmp_name f) JEmptyDict ;;
  print [plain EmptyString] ;;
  mret f'.

(** "First run": where [d_old] of each side comes from. *)
Definition load_old (f : direct) : M direct :=
  fr ← gets first_run;
  if fr : bool then
    let f' := {| lcl := with_d_old (d_tmp (lcl f)) (lcl f);
                 rmt := with_d_old (d_tmp (rmt f)) (rmt f);
                 direct_path := direct_path f |} in
    modify (set_recover true) ;;
    mret f'
  else
    print [plain "Reading last state"] ;;
    m ← gets master;
    b ← lift (get_branch m (direct_path f));
    old ← unpack_default b;
    mret {| lcl := with_d_old old (lcl f);
            rmt := with_d_old old (rmt f);
            direct_path := direct_path f |}.

(** "main logic": the three partitions of the two diff sets. *)
Definition rmt_dif (f : direct) : gset string := s_dif (rmt f) ∖ s_dif (lcl f).
Definition lcl_dif (f : direct) : gset string := s_dif (lcl f) ∖ s_dif (rmt f).
Definition inter (f : direct) : gset string := s_dif (rmt f) ∩ s_dif (lcl f).

(** From [mem_dry = dry_run] to [counter = 0]. *)
Definition dry_pass (f : direct) : M unit :=
  mem_dry ← gets dry_run;
  print [col grn "Dry pass:"] ;;
  modify (set_dry_run true) ;;
  sync f (lcl_dif f) (rmt_dif f) (inter f) ;;
  modify (set_dry_run mem_dry) ;;
  c ← gets counter;
  modify (set_total_jobs c) ;;
  modify (set_counter 0%Z).

Definition value_str (v : value) : string :=
  match v with VInt n => pretty n | VStr s => s end.

(** The [if dry_run: ... elif ... else:] statement after the dry pass.
    The arguments of [print] are evaluated before it is called. *)
Definition report_and_live (e : env) (f : direct) : M unit :=
  dr ← gets dry_run;
  if dr : bool then
    t ← gets total_jobs;
    v ← lift (add (VInt t) (VStr "jobs"));
    print [plain "Found:"; plain (value_str v)]
  else
    c ← gets counter;
    if bool_decide (c = 0%Z) then print [plain "Nothing to Sync"]
    else
      a ← gets auto;
      declined ← (if a : bool then mret false
                  else
                    reply ← input (answer e) "Execute? ";
                    yes ← lift (getitem strtobool reply);
                    mret (negb yes));
      if declined : bool then skip_
      else
        print [col grn "Live pass:"] ;;
        sync f (lcl_dif f) (rmt_dif f) (inter f).

(** From [print(grn('Saving:'), ...)] to the end of the loop body. *)
Definition save (e : env) (f : direct) (min_path : string) : M unit :=
  print_end [col grn "Saving:"; plain (qt min_path)] " " ;;
  packed ← lift (pack (lsl_min e));
  m ← gets master;
  m' ← lift (merge m min_path packed);
  modify (set_master m') ;;
  write "master.json" (JNest m') ;;
  dr ← gets dry_run;
  (if dr : bool then skip_ else run ["rm"; tmp_name f]) ;;
  print [plain EmptyString].

(** The classification stage: everything up to [f.build_dif()]. *)
Definition prepare (e : env) (f : direct) : M (string * direct) :=
  min_path ← enter e f;
  f1 ← crawl e f;
  f2 ← load_old f1;
  f3 ← lift (direct_build_dif f2);
  mret (min_path, f3).

(** One iteration of [for f in main:]. *)
Definition pass (e : env) (f : direct) : M unit :=
  '(min_path, f3) ← prepare e f;
  dry_pass f3 ;;
  report_and_live e f3 ;;
  save e f3 min_path.

(** [for f in main:] over the folders named on the command line, each
    with the answers the outside world gives during its pass. *)
Definition main_loop (folders : list (string * env)) : M unit :=
  for_each folders (λ fe, pass fe.2 (direct_init fe.1)).

(** The module state when the main loop is entered. *)
Definition startup (dry verbose rec aut skp : bool) (m : nest) : globals :=
  {| dry_run := dry; verbosity := verbose; recover := rec; auto := aut;
     skip := skp; first_run := false; counter := 0; total_jobs := 0;
     master := m; unpack_d := ∅; trace := [] |}.

End Sinc.

(** ** [rsinc/__main__.py] *)

Module Rsinc.

Definition STB : list string :=
  [ "yes"; "ye"; "y"; "1"; "t"; "true"; EmptyString; "go"; "please";
    "fire away"; "punch it"; "sure"; "ok"; "hell yes" ].

(** [strtobool(string)]. *)
Definition strtobool (s : string) : bool := bool_decide (lower s ∈ STB).

(** What [main] does for one folder once the dry pass has returned
    [total]: whether the operator is prompted, and whether the block
    under [print(grn("Live pass:"))] is executed. *)
Record outcome := { prompted : bool; live_pass : bool }.

(** The two nested [if] statements that follow
    [print('Found:', total, 'job(s)')]. [or] evaluates its operands from
    the left and stops at the first true one, so [input] is only called
    when [auto] is false and [total] is not zero. *)
Definition after_dry_pass (dry_run auto recover : bool) (total : Z)
    (answer : string) : outcome :=
  if dry_run then {| prompted := false; live_pass := false |}
  else
    let ask := negb auto && negb (total =? 0)%Z in
    let go := auto || (total =? 0)%Z || strtobool answer in
    if go then
      {| prompted := ask; live_pass := negb (total =? 0)%Z || recover |}
    else {| prompted := ask; live_pass := false |}.

End Rsinc.

(** ** Vocabulary of the specification

    The notions below are not part of the program; they are what the
    statements of Part II are phrased in. *)

Module Spec.
Import Sinc.

(** §3 ChangeClass, with the order the decision table is indexed by. *)
Inductive ChangeClass := Unchanged | Modified | Deleted | Created.

#[global] Instance ChangeClass_eq_dec : EqDecision ChangeClass.
Proof. solve_decision. Defined.

Definition code (c : ChangeClass) : nat :=
  match c with Unchanged => 0 | Modified => 1 | Deleted => 2 | Created => 3 end.

(** §3 SyncJob, without its path. *)
Inductive Action := NoOp | Pull | Push | DeleteLocal | DeleteRemote | Conflict.

#[global] Instance Action_eq_dec : EqDecision Action.
Proof. solve_decision. Defined.

(** The decision table, as §4.4 prints it: rows are the local class,
    columns the remote class. *)
Definition Table (local remote : ChangeClass) : Action :=
  match local, remote with
  | Unchanged, Unchanged => NoOp
  | Unchanged, Modified => Pull
  | Unchanged, Deleted => DeleteLocal
  | Unchanged, Created => Conflict
  | Modified, Unchanged => Push
  | Modified, Modified => Conflict
  | Modified, Deleted => Push
  | Modified, Created => Conflict
  | Deleted, Unchanged => DeleteRemote
  | Deleted, Modified => Pull
  | Deleted, Deleted => NoOp
  | Deleted, Created => Pull
  | Created, Unchanged => Conflict
  | Created, Modified => Conflict
  | Created, Deleted => Push
  | Created, Created => Conflict
  end.

(** The function of [sinc.py] that carries out each action. *)
Definition perform (a : Action) : string → string → M unit :=
  match a with
  | NoOp => null
  | Pull => cpyL
  | Push => cpyR
  | DeleteLocal => delL
  | DeleteRemote => delR
  | Conflict => conflict
  end.

(** §4.3: the class of a path from its baseline and current entries. *)
Definition classify (o t : option FileState) : option ChangeClass :=
  match o, t with
  | None, None => None
  | Some _, None => Some Deleted
  | None, Some _ => Some Created
  | Some o, Some t =>
      if decide (bytesize t ≠ bytesize o ∨ (datetime t > datetime o)%Z)
      then Some Modified else Some Unchanged
  end.

(** The class code that [build_dif] is to store for [key]. *)
Definition class_of (self : data) (key : string) : option nat :=
  code <$> classify (d_old self !! key) (d_tmp self !! key).

(** A job that deletes a file: the [rclone delete] call of a live pass,
    and the [Delete:] line that announces it in either kind of pass. *)
Definition is_delete (e : event) : bool :=
  match e with
  | Subprocess argv => bool_decide (take 2 argv = ["rclone"; "delete"])
  | Stdout [line] _ =>
      bool_decide ((Some ylw, "Delete: ") ∈ line ∨ (Some ylw, " Delete: ") ∈ line)
  | _ => false
  end.

Definition not_delete (e : event) : Prop := is_delete e = false.

(** The lines written to the terminal, in order. *)
Definition printed (t : list event) : list (list cstr) :=
  omap (λ e, match e with Stdout args _ => Some args | _ => None end) t.

(** The commands handed to [subprocess.run], in order. *)
Definition executed (t : list event) : list (list string) :=
  omap (λ e, match e with Subprocess argv => Some argv | _ => None end) t.

(** [m] leaves the component [proj] of the module state as it found it. *)
Definition keeps {A X} (proj : globals → X) (m : M A) : Prop :=
  ∀ g, proj (m g).2 = proj g.

(** Everything in the module state except the job counter and the
    trace. *)
Definition flag_of (g : globals) :=
  (dry_run g, verbosity g, recover g, auto g, skip g, first_run g,
   total_jobs g, master g, unpack_d g).

(** Started in [g], [m] returns normally, with a value and in a state
    that satisfy [Q]. *)
Definition returns {A} (m : M A) (g : globals) (Q : A → globals → Prop)
    : Prop :=
  match m g with
  | (Ok a, g') => Q a g'
  | (Raise _, _) => False
  end.

(** [m] only appends to the trace, and only events that satisfy [P]. *)
Definition emits_only {A} (P : event → Prop) (m : M A) : Prop :=
  ∀ g, ∃ evs, trace (m g).2 = trace g ++ evs ∧ Forall P evs.

(** A name that can be one component of a path. *)
Fixpoint no_slash (s : string) : Prop :=
  match s with
  | EmptyString => True
  | String c s' => c ≠ slash ∧ no_slash s'
  end.

(** [strip p s] is [Some r] exactly when [s = p +:+ r]. *)
Fixpoint strip (p s : string) : option string :=
  match p, s with
  | EmptyString, _ => Some s
  | String a p', String b s' => if decide (a = b) then strip p' s' else None
  | String _ _, EmptyString => None
  end.

(** The entry a packed dictionary holds for a chain of names. *)
Fixpoint lookup_chain (n : nest) (chain : list string) : option FileState :=
  match chain with
  | [] => None
  | [c] => file n !! c
  | c :: rest =>
      match fold n !! c with
      | Some n' => lookup_chain n' rest
      | None => None
      end
  end.

(** The entry a flattened key stands for: the key without the path
    walked so far, looked up along its names. *)
Definition entry_at (n : nest) (path key : string) : option FileState :=
  strip path key ≫= λ rest, lookup_chain n (split rest).

(** The same for a rest of key that goes through one of the folders
    [fo]. *)
Definition folder_entry (fo : gmap string nest) (rest : string)
    : option FileState :=
  match split rest with
  | c0 :: c1 :: rs =>
      match fo !! c0 with
      | Some n' => lookup_chain n' (c1 :: rs)
      | None => None
      end
  | _ => None
  end.

(** [unpack] adds to [d] exactly the entries that [n] holds below
    [path], and these win over what [d] held. *)
Definition flattens (n : nest) : Prop :=
  ∀ (d : gmap string FileState) (path key : string),
    unpack n d path !! key
    = match entry_at n path key with
      | Some v => Some v
      | None => d !! key
      end.

(** Every name of the chain is a folder below the previous one. *)
Fixpoint folder_chain (n : nest) (chain : list string) : bool :=
  match chain with
  | [] => true
  | c :: rest =>
      match fold n !! c with
      | Some n' => folder_chain n' rest
      | None => false
      end
  end.

(** The number of nodes of a packed dictionary. *)
Fixpoint nest_size (n : nest) : nat :=
  S (map_fold (λ _ c acc, nest_size c + acc)%nat 0%nat (fold n)).

(** No file or folder name contains a slash. *)
Inductive wf : nest → Prop :=
| wf_Nest fo fi :
    (∀ k v, fi !! k = Some v → no_slash k) →
    (∀ k c, fo !! k = Some c → no_slash k ∧ wf c) →
    wf (Nest fo fi).

End Spec.

(** ** Concrete runs *)

Module Scenario.
Import Sinc.

Definition fs (size time : Z) : FileState :=
  {| bytesize := size; datetime := time |}.

(** A master file in which the folder [cpp] has been synced with one
    file [a] of size 10 and time 100 (the baseline of scenarios B to D
    of §8). *)
Definition master_a : nest :=
  Nest {[ "cpp" := Nest ∅ {[ "a" := fs 10 100 ]} ]} ∅.

(** A master file in which the folder [cpp] was synced while empty. *)
Definition master_none : nest := Nest {[ "cpp" := Sinc.empty ]} ∅.

(** A master file with two synced folders. *)
Definition master_two : nest :=
  Nest {[ "cpp" := Nest ∅ {[ "a" := fs 10 100 ]};
          "test" := Nest ∅ {[ "b" := fs 7 70 ]} ]} ∅.

(** Scenario C of §8: modified locally, untouched remotely. *)
Definition world_C : env :=
  {| tmp_exists := false;
     lsl_lcl := {[ "a" := fs 20 150 ]};
     lsl_rmt := {[ "a" := fs 10 100 ]};
     lsl_min := {[ "a" := fs 20 150 ]};
     answer := "y" |}.

(** Nothing changed on either side. *)
Definition world_same : env :=
  {| tmp_exists := false;
     lsl_lcl := {[ "a" := fs 10 100 ]};
     lsl_rmt := {[ "a" := fs 10 100 ]};
     lsl_min := {[ "a" := fs 10 100 ]};
     answer := "y" |}.

(** Both sides hold a new file [x] with the same size and time. *)
Definition world_tie : env :=
  {| tmp_exists := false;
     lsl_lcl := {[ "x" := fs 10 100 ]};
     lsl_rmt := {[ "x" := fs 10 100 ]};
     lsl_min := {[ "x" := fs 10 100 ]};
     answer := "y" |}.

(** Scenario A of §8: one local file, nothing remote. *)
Definition world_A : env :=
  {| tmp_exists := false;
     lsl_lcl := {[ "a" := fs 10 100 ]};
     lsl_rmt := ∅;
     lsl_min := {[ "a" := fs 10 100 ]};
     answer := "y" |}.

(** The program run up to the end of the dry pass of one folder. *)
Definition until_dry_pass (e : env) (arg : string) : M direct :=
  '(_, f) ← prepare e (direct_init arg);
  dry_pass f ;;
  mret f.

(** [unpack(get_branch(tree, path))] after
    [merge(tree, path, pack(snapshot))], as the main loop writes these
    calls: the flattening relies on the default arguments of [unpack]. *)
Definition round_trip (tree : nest) (path : string)
    (snapshot : gmap string FileState)
    : M (nest * gmap string FileState) :=
  packed ← lift (pack snapshot);
  tree' ← lift (merge tree path packed);
  branch ← lift (get_branch tree' path);
  flat ← unpack_default branch;
  mret (tree', flat).

(** Two round trips in one run of the program. *)
Definition two_round_trips : M (gmap string FileState) :=
  '(tree, _) ← round_trip Sinc.empty "cpp" {[ "a" := fs 10 100 ]};
  '(_, flat) ← round_trip tree "test" {[ "b" := fs 7 70 ]};
  mret flat.

(** The local side of scenario C, as the main loop sets it up before it
    calls [build_dif]. *)
Definition local_C : data :=
  with_d_old {[ "a" := fs 10 100 ]}
    (with_d_tmp {[ "a" := fs 20 150 ]} (data_init BASE_L "cpp")).

(** A side on which nothing changed. *)
Definition local_same : data :=
  with_d_old {[ "a" := fs 10 100 ]}
    (with_d_tmp {[ "a" := fs 10 100 ]} (data_init BASE_L "cpp")).

Definition world_test : env :=
  {| tmp_exists := false;
     lsl_lcl := {[ "b" := fs 7 70 ]};
     lsl_rmt := {[ "b" := fs 7 70 ]};
     lsl_min := {[ "b" := fs 7 70 ]};
     answer := "y" |}.

End Scenario.


(** ** Vocabulary for the further properties of Part III *)

Module More.
Import Sinc Spec.

(** The number of jobs an action adds to the job counter: a conflict
    counts its two copies, unless conflicts are skipped. *)
Definition jobs (skip : bool) (a : Action) : Z :=
  match a with
  | NoOp => 0
  | Pull | Push | DeleteLocal | DeleteRemote => 1
  | Conflict => if skip then 0 else 2
  end.

(** The [rclone] commands of an action in a live run, for the local
    path [l] and the remote path [r] of one file. *)
Definition commands (skip : bool) (a : Action) (l r : string)
    : list (list string) :=
  match a with
  | NoOp => []
  | Push => [["rclone"; "copyto"; l; r]]
  | Pull => [["rclone"; "copyto"; r; l]]
  | DeleteLocal => [["rclone"; "delete"; l]]
  | DeleteRemote => [["rclone"; "delete"; r]]
  | Conflict =>
      if skip then []
      else [ ["rclone"; "moveto"; l; l +:+ ".lcl_conflict"];
             ["rclone"; "moveto"; r; r +:+ ".rmt_conflict"];
             ["rclone"; "copyto"; l +:+ ".lcl_conflict"; r +:+ ".lcl_conflict"];
             ["rclone"; "copyto"; r +:+ ".rmt_conflict"; l +:+ ".rmt_conflict"] ]
  end.

(** An event that only writes to the terminal. *)
Definition is_stdout (e : event) : Prop :=
  match e with
  | Stdout _ _ => True
  | _ => False
  end.

(** Run while [dry_run] is set, [m] leaves it set and does nothing but
    print. *)
Definition dry_prints_only {A} (m : M A) : Prop :=
  ∀ g, dry_run g = true →
    dry_run (m g).2 = true
    ∧ ∃ evs, trace (m g).2 = trace g ++ evs ∧ Forall is_stdout evs.

(** The only exception [m] can raise is [KeyError]. *)
Definition raises_only_KeyError {A} (m : M A) : Prop :=
  ∀ g, match (m g).1 with
       | Ok _ => True
       | Raise x => x = KeyError
       end.

(** An event that runs no command. *)
Definition no_command (e : event) : Prop :=
  match e with
  | Subprocess _ => False
  | _ => True
  end.

(** [m] never turns the flag [proj] off. *)
Definition never_clears {A} (proj : globals → bool) (m : M A) : Prop :=
  ∀ g, proj g = true → proj (m g).2 = true.

End More.

(** ** More of [rsinc/__main__.py] *)

Module RsincMain.
Import Py Sinc.

(** [_have(nest, chain)] as rewritten in [__main__.py]: the membership
    test comes first, then the length test. Only [nest['fold']] is read. *)
Fixpoint _have (n : nest) (chain : list string) : Result bool :=
  match chain with
  | [] => Raise IndexError
  | c :: rest =>
      match fold n !! c with
      | Some n' =>
          match rest with
          | [] => Ok true
          | _ :: _ => _have n' rest
          end
      | None => Ok false
      end
  end.

(** [folders.remove(corrupt)]: the first occurrence goes. *)
Fixpoint remove_first (x : string) (l : list string) : list string :=
  match l with
  | [] => []
  | y :: l' => if decide (y = x) then l' else y :: remove_first x l'
  end.

(** "Detect crashes" in [main]: [temp_file] is the folder named by the
    [TEMP_FILE], when that file exists. Yields the list of folders to
    process and the recovery flag. *)
Definition detect_crash (temp_file : option string) (recover : bool)
    (folders : list string) : list string * bool :=
  match temp_file with
  | Some corrupt =>
      let folders1 :=
        if bool_decide (corrupt ∈ folders) then remove_first corrupt folders
        else folders in
      (corrupt :: folders1, true)
  | None => (folders, recover)
  end.

End RsincMain.

(** ** [sinc.py] at module level: the folder of the working directory *)

Module Startup.
Import Py.

(** [cwd = CWD.split('/')], [cwd = cwd[len(BASE_L.split('/')[:-1]):]],
    [cwd = '/'.join(cwd)], for any [BASE_L]. *)
Definition relative_cwd (base cwd : string) : string :=
  join (drop (length (removelast (split base))) (split cwd)).

End Startup.

(** ** [rsinc/config.py] *)

Module Config.
Import Py.

(** [s[-1]]. *)
Fixpoint last_char (s : string) : Result ascii :=
  match s with
  | EmptyString => Raise IndexError
  | String c EmptyString => Ok c
  | String _ s' => last_char s'
  end.

(** The correction [config_cli] applies to a root folder, [s] being the
    answer to the prompt after [os.path.expanduser]:
    [if s[-1] != "/" and s[-1] != ":": s += suffix]. The suffix is ['/']
    for the local root and [':'] for the remote root. *)
Definition add_trailing (suffix s : string) : Result string :=
  c1 ← last_char s;
  if bool_decide (c1 ≠ "/"%char) then
    c2 ← last_char s;
    if bool_decide (c2 ≠ ":"%char) then Ok (s +:+ suffix) else Ok s
  else Ok s.

End Config.

(* ===================================================================== *)
(** * Part II. Properties                                                  *)
(* ===================================================================== *)

Import Sinc Spec.

(** ** Paths: [split] and [join] *)

Section paths.

#[local] Arguments String.append !_ _ / : simpl nomatch.

Lemma split_nonempty s : split s ≠ [].
Proof.
  destruct s as [|c s']; simpl; [done|].
  case_decide; [done|]. by destruct (split s').
Qed.

Lemma split_cons s : ∃ c rest, split s = c :: rest.
Proof.
  destruct (split s) as [|c rest] eqn:E; [|by eauto].
  by destruct (split_nonempty s).
Qed.

(** ['/'.join(s.split('/')) == s]. *)
Lemma join_split s : join (split s) = s.
Proof.
  induction s as [|c s' IH]; simpl; [done|].
  case_decide as Hc.
  - subst c. destruct (split_cons s') as (h & t & E).
    rewrite E in IH |- *. simpl in *. by rewrite IH.
  - destruct (split_cons s') as (h & t & E).
    rewrite E in IH |- *. destruct t as [|h' t]; simpl in *; by rewrite <- IH.
Qed.

Lemma split_inj s1 s2 : split s1 = split s2 → s1 = s2.
Proof. intros E. by rewrite <- (join_split s1), <- (join_split s2), E. Qed.

Lemma split_no_slash s : Forall no_slash (split s).
Proof.
  induction s as [|c s' IH]; simpl.
  - by repeat constructor.
  - case_decide as Hc.
    + by constructor.
    + destruct (split s') as [|h t]; [by repeat constructor|].
      inversion_clear IH. by repeat constructor.
Qed.

(** A name followed by a slash is the first component of what the two
    are a prefix of. *)
Lemma split_name_slash k r : no_slash k → split (k +:+ "/" +:+ r) = k :: split r.
Proof.
  induction k as [|c k IH]; simpl in *; intros Hk; [done|].
  destruct Hk as [Hc Hk]. rewrite decide_False by done.
  by rewrite (IH Hk).
Qed.

Lemma split_name k : no_slash k → split k = [k].
Proof.
  induction k as [|c k IH]; simpl; intros Hk; [done|].
  destruct Hk as [Hc Hk]. rewrite decide_False by done. by rewrite (IH Hk).
Qed.

Lemma join_cons c c' rest : join (c :: c' :: rest) = c +:+ "/" +:+ join (c' :: rest).
Proof. done. Qed.

Lemma append_assoc (a b c : string) : (a +:+ b) +:+ c = a +:+ (b +:+ c).
Proof. induction a as [|x a IH]; simpl; [done|]. by rewrite IH. Qed.

Lemma append_nil_r (a : string) : a +:+ EmptyString = a.
Proof. induction a as [|x a IH]; simpl; [done|]. by rewrite IH. Qed.

Lemma strip_append p r : strip p (p +:+ r) = Some r.
Proof.
  induction p as [|a p IH]; simpl; [by destruct r|].
  by rewrite decide_True.
Qed.

Lemma strip_Some p s r : strip p s = Some r → s = p +:+ r.
Proof.
  revert s. induction p as [|a p IH]; intros s; simpl.
  - destruct s; by intros [= ->].
  - destruct s as [|b s]; [done|]. case_decide; [|done].
    subst b. intros E. by rewrite (IH _ E).
Qed.

Lemma strip_app p q s : strip (p +:+ q) s = strip p s ≫= strip q.
Proof.
  revert s. induction p as [|a p IH]; intros s; simpl.
  - by destruct s.
  - destruct s as [|b s]; [done|]. case_decide; [|done]. apply IH.
Qed.

(** How the components of a path relate to stripping its first name. *)
Lemma strip_name_split k rest :
  no_slash k →
  strip (k +:+ "/") rest
  = match split rest with
    | c :: (c' :: rs) => if decide (c = k) then Some (join (c' :: rs)) else None
    | _ => None
    end.
Proof.
  intros Hk. destruct (strip (k +:+ "/") rest) as [r|] eqn:E.
  - apply strip_Some in E. subst rest.
    rewrite append_assoc, split_name_slash by done.
    destruct (split_cons r) as (c' & rs & Er). rewrite Er.
    rewrite decide_True by done. by rewrite <- Er, join_split.
  - destruct (split rest) as [|c [|c' rs]] eqn:Es; [done..|].
    case_decide as Hc; [|done]. subst c. exfalso.
    assert (rest = k +:+ "/" +:+ join (c' :: rs)) as ->.
    { by rewrite <- (join_split rest), Es. }
    by rewrite <- append_assoc, strip_append in E.
Qed.

End paths.

(** ** The differ *)

Section differ.

Implicit Types (self : data) (dif : gmap string nat) (k key : string).

Lemma set_fold_insert_const (c : nat) (X : gset string) dif k :
  set_fold (λ key dif, <[key := c]> dif) dif X !! k
  = if decide (k ∈ X) then Some c else dif !! k.
Proof.
  revert k.
  set (P := λ (r : gmap string nat) (Y : gset string),
         ∀ k, r !! k = if decide (k ∈ Y) then Some c else dif !! k).
  change (P (set_fold (λ key dif, <[key := c]> dif) dif X) X).
  apply set_fold_ind_L; unfold P.
  - intros k. case_decide; [set_solver|done].
  - intros x Y r Hx IH k. destruct (decide (k = x)) as [->|Hne].
    + rewrite lookup_insert_eq. case_decide; [done|set_solver].
    + rewrite lookup_insert_ne by done. rewrite IH.
      repeat case_decide; set_solver.
Qed.

Lemma classify_inter_Ok self key dif o t :
  d_old self !! key = Some o → d_tmp self !! key = Some t →
  ∃ c, classify_inter self key dif = Ok (<[key := c]> dif)
       ∧ class_of self key = Some c.
Proof.
  intros Ho Ht. unfold classify_inter, class_of, getitem.
  rewrite Ho, Ht. simpl.
  repeat case_bool_decide; case_decide; simpl; eauto; exfalso;
    naive_solver lia.
Qed.

Lemma for_keys_classify self keys dif :
  (∀ k, k ∈ keys → is_Some (d_old self !! k) ∧ is_Some (d_tmp self !! k)) →
  ∃ dif', for_keys keys (classify_inter self) dif = Ok dif'
    ∧ ∀ k, dif' !! k = if decide (k ∈ keys) then class_of self k else dif !! k.
Proof.
  revert dif. induction keys as [|key keys IH]; intros dif Hin;
    cbn [for_keys mbind Result_bind].
  - exists dif. split; [done|]. intros k. case_decide; [set_solver|done].
  - destruct (Hin key) as [[o Ho] [t Ht]]; [set_solver|].
    destruct (classify_inter_Ok self key dif o t Ho Ht) as (c & -> & Hc).
    cbn [mbind Result_bind]. destruct (IH (<[key := c]> dif)) as (dif' & -> & Hdif').
    { intros k Hk. apply Hin. set_solver. }
    exists dif'. split; [done|]. intros k. rewrite Hdif'.
    destruct (decide (k = key)) as [->|Hne].
    + rewrite lookup_insert_eq. repeat case_decide; set_solver.
    + rewrite lookup_insert_ne by done. repeat case_decide; set_solver.
Qed.

(** [build_dif] never raises, and overwrites the class of exactly the
    paths of the two listings. *)
Lemma build_dif_lookup self :
  ∃ self', build_dif self = Ok self'
    ∧ data_path self' = data_path self
    ∧ d_old self' = d_old self ∧ d_tmp self' = d_tmp self
    ∧ s_dif self' = dom (d_dif self')
    ∧ s_low self' = set_map lower (dom (d_tmp self))
    ∧ ∀ k, d_dif self' !! k
           = match class_of self k with
             | Some c => Some c
             | None => d_dif self !! k
             end.
Proof.
  unfold build_dif.
  set (O := dom (d_old self)). set (C := dom (d_tmp self)).
  set (dif2 := set_fold _ (set_fold _ _ _) _).
  destruct (for_keys_classify self (elements (C ∩ O)) dif2) as (dif3 & -> & H3).
  { intros k Hk. apply elem_of_elements, elem_of_intersection in Hk.
    destruct Hk as [Hc Ho]. by apply elem_of_dom in Hc, Ho. }
  simpl. eexists. split; [done|]. simpl. repeat (split; [done|]).
  intros k. rewrite H3. unfold dif2.
  rewrite !set_fold_insert_const. unfold class_of, classify.
  destruct (d_old self !! k) as [o|] eqn:Ho, (d_tmp self !! k) as [t|] eqn:Ht.
  - rewrite decide_True; [by case_decide|].
    apply elem_of_elements, elem_of_intersection. split; apply elem_of_dom; eauto.
  - rewrite decide_False.
    2:{ rewrite elem_of_elements, elem_of_intersection. intros [Hc _].
        apply elem_of_dom in Hc. rewrite Ht in Hc. by destruct Hc. }
    rewrite decide_True; [done|].
    apply elem_of_difference. split; [apply elem_of_dom; eauto|].
    intros Hc. apply elem_of_dom in Hc. rewrite Ht in Hc. by destruct Hc.
  - rewrite decide_False.
    2:{ rewrite elem_of_elements, elem_of_intersection. intros [_ Hc].
        apply elem_of_dom in Hc. rewrite Ho in Hc. by destruct Hc. }
    rewrite decide_False.
    2:{ rewrite elem_of_difference. intros [Hc _].
        apply elem_of_dom in Hc. rewrite Ho in Hc. by destruct Hc. }
    rewrite decide_True; [done|].
    apply elem_of_difference. split; [apply elem_of_dom; eauto|].
    intros Hc. apply elem_of_dom in Hc. rewrite Ho in Hc. by destruct Hc.
  - rewrite decide_False.
    2:{ rewrite elem_of_elements, elem_of_intersection. intros [Hc _].
        apply elem_of_dom in Hc. rewrite Ht in Hc. by destruct Hc. }
    rewrite decide_False.
    2:{ rewrite elem_of_difference. intros [Hc _].
        apply elem_of_dom in Hc. rewrite Ho in Hc. by destruct Hc. }
    rewrite decide_False; [done|].
    rewrite elem_of_difference. intros [Hc _].
    apply elem_of_dom in Hc. rewrite Ht in Hc. by destruct Hc.
Qed.

Lemma direct_build_dif_Ok (f : direct) :
  ∃ l r, build_dif (lcl f) = Ok l ∧ build_dif (rmt f) = Ok r
    ∧ direct_build_dif f = Ok {| lcl := l; rmt := r; direct_path := direct_path f |}.
Proof.
  destruct (build_dif_lookup (lcl f)) as (l & Hl & _).
  destruct (build_dif_lookup (rmt f)) as (r & Hr & _).
  exists l, r. unfold direct_build_dif. by rewrite Hl, Hr.
Qed.

End differ.

(** ** Claims about the differ *)

(** A run on concrete inputs is settled by evaluating it: the run returns
    normally and the final state passes a decidable test. *)
Lemma run_returns {A} (r : Result A * globals) (Q : A → globals → Prop)
    `{!∀ a g, Decision (Q a g)} :
  match r with
  | (Ok a, g) => bool_decide (Q a g)
  | (Raise _, _) => false
  end = true →
  ∃ a g, r = (Ok a, g) ∧ Q a g.
Proof.
  destruct r as [[a|e] g]; [|done].
  intros Hq%bool_decide_eq_true. eauto.
Qed.

(** The same for a run that raises. *)
Lemma run_raises {A} (r : Result A * globals) (Q : exn → globals → Prop)
    `{!∀ e g, Decision (Q e g)} :
  match r with
  | (Raise e, g) => bool_decide (Q e g)
  | (Ok _, _) => false
  end = true →
  ∃ e g, r = (Raise e, g) ∧ Q e g.
Proof.
  destruct r as [[a|e] g]; [done|].
  intros Hq%bool_decide_eq_true. eauto.
Qed.

Section differ_claims.

Implicit Types (self : data) (k : string).

(** What [build_dif] computes on a freshly initialised object. *)
Lemma build_dif_fresh self :
  d_dif self = ∅ →
  ∃ self', build_dif self = Ok self'
    ∧ s_dif self' = dom (d_dif self')
    ∧ ∀ k, d_dif self' !! k = class_of self k.
Proof.
  intros Hempty.
  destruct (build_dif_lookup self) as (self' & Hb & _ & _ & _ & Hs & _ & Hl).
  exists self'. repeat (split; [done|]).
  intros k. rewrite Hl, Hempty, lookup_empty. by destruct (class_of self k).
Qed.

(** C5. On a [data] object whose [d_dif] is still empty, as [__init__]
    leaves it, [build_dif] returns normally and, writing O for the keys
    of [d_old] and C for the keys of [d_tmp]: the paths of class 2
    (deleted) are exactly O \ C; the paths of class 3 (created) are
    exactly C \ O; a path of O ∩ C has class 1 (modified) exactly when its
    sizes differ or its current time is strictly greater than its
    baseline time, and class 0 (unchanged) exactly otherwise; and the
    paths that receive a class are exactly those of O ∪ C. A path has at
    most one class because [d_dif] is a map. *)
Theorem C5_build_dif_classifies self :
  d_dif self = ∅ →
  ∃ self', build_dif self = Ok self' ∧
    (∀ k, d_dif self' !! k = Some (code Deleted)
          ↔ k ∈ dom (d_old self) ∖ dom (d_tmp self)) ∧
    (∀ k, d_dif self' !! k = Some (code Created)
          ↔ k ∈ dom (d_tmp self) ∖ dom (d_old self)) ∧
    (∀ k o t, d_old self !! k = Some o → d_tmp self !! k = Some t →
       (d_dif self' !! k = Some (code Modified)
        ↔ bytesize t ≠ bytesize o ∨ (datetime t > datetime o)%Z) ∧
       (d_dif self' !! k = Some (code Unchanged)
        ↔ bytesize t = bytesize o ∧ (datetime t ≤ datetime o)%Z)) ∧
    (∀ k, is_Some (d_dif self' !! k)
          ↔ k ∈ dom (d_old self) ∪ dom (d_tmp self)).
Proof.
  intros Hempty.
  destruct (build_dif_fresh self Hempty) as (self' & Hb & _ & Hk).
  exists self'. split; [done|].
  unfold class_of, classify in Hk.
  split; [|split; [|split]].
  - intros k. rewrite Hk, elem_of_difference, !elem_of_dom. unfold is_Some.
    destruct (d_old self !! k), (d_tmp self !! k); simpl;
      try case_decide; simpl; naive_solver.
  - intros k. rewrite Hk, elem_of_difference, !elem_of_dom. unfold is_Some.
    destruct (d_old self !! k), (d_tmp self !! k); simpl;
      try case_decide; simpl; naive_solver.
  - intros k o t Ho Ht. rewrite Hk, Ho, Ht.
    case_decide; simpl; (split; split); try done; try lia; naive_solver lia.
  - intros k. rewrite Hk, elem_of_union, !elem_of_dom. unfold is_Some.
    destruct (d_old self !! k), (d_tmp self !! k); simpl;
      try case_decide; simpl; naive_solver.
Qed.

Lemma C5_build_dif_classifies_witness :
  d_dif Scenario.local_C = ∅ ∧
  ∃ self', build_dif Scenario.local_C = Ok self'
           ∧ d_dif self' !! "a" = Some (code Modified).
Proof.
  split; [reflexivity|].
  destruct (C5_build_dif_classifies Scenario.local_C eq_refl)
    as (self' & Hb & _ & _ & Hm & _).
  exists self'. split; [exact Hb|].
  apply (Hm "a" (Scenario.fs 10 100) (Scenario.fs 20 150)).
  - vm_compute; reflexivity.
  - vm_compute; reflexivity.
  - right. simpl. lia.
Defined.

(** C6, as the claim states it, fails: when nothing changed in folder
    [cpp], the path [a] is in the diff set of both sides with class 0
    (unchanged), and is in the [inter] partition given to [sync]. *)
Lemma C6_counterexample :
  ∃ mf g,
    prepare Scenario.world_same (direct_init "cpp")
      (startup false false false false false Scenario.master_a)
    = (Ok mf, g)
    ∧ "a" ∈ s_dif (lcl mf.2)
    ∧ d_dif (lcl mf.2) !! "a" = Some (code Unchanged)
    ∧ "a" ∈ s_dif (rmt mf.2)
    ∧ d_dif (rmt mf.2) !! "a" = Some (code Unchanged)
    ∧ "a" ∈ inter mf.2.
Proof. refine (run_returns _ _ _). vm_compute. reflexivity. Qed.

(** C6, amended. On a [data] object whose [d_dif] is still empty, the
    diff set [s_dif] that [build_dif] leaves for the reconciler is the
    whole of O ∪ C: each of its paths has one of the four classes, and a
    path of O ∩ C with identical size and a current time not greater than
    its baseline time is retained in it with class 0 (unchanged). *)
Theorem C6_diff_set_is_every_classified_path self :
  d_dif self = ∅ →
  ∃ self', build_dif self = Ok self' ∧
    s_dif self' = dom (d_old self) ∪ dom (d_tmp self) ∧
    (∀ k, k ∈ s_dif self' → ∃ c, d_dif self' !! k = Some (code c)) ∧
    (∀ k o t, d_old self !! k = Some o → d_tmp self !! k = Some t →
       bytesize t = bytesize o → (datetime t ≤ datetime o)%Z →
       k ∈ s_dif self' ∧ d_dif self' !! k = Some (code Unchanged)).
Proof.
  intros Hempty.
  destruct (build_dif_fresh self Hempty) as (self' & Hb & Hs & Hk).
  exists self'. split; [done|]. split; [|split].
  - rewrite Hs. apply set_eq. intros k.
    rewrite elem_of_dom, Hk, elem_of_union, !elem_of_dom.
    unfold class_of, classify, is_Some.
    destruct (d_old self !! k), (d_tmp self !! k); simpl;
      try case_decide; simpl; naive_solver.
  - intros k. rewrite Hs, elem_of_dom, Hk. unfold class_of.
    destruct (classify _ _) as [c|]; simpl; [by eauto|]. by intros [? ?].
  - intros k o t Ho Ht Hsize Htime.
    assert (d_dif self' !! k = Some (code Unchanged)) as Hu.
    { rewrite Hk. unfold class_of, classify. rewrite Ho, Ht.
      rewrite decide_False; [done|lia]. }
    split; [|done]. rewrite Hs. apply elem_of_dom. by rewrite Hu.
Qed.

Lemma C6_diff_set_is_every_classified_path_witness :
  d_dif Scenario.local_same = ∅ ∧
  ∃ self', build_dif Scenario.local_same = Ok self'
           ∧ "a" ∈ s_dif self'
           ∧ d_dif self' !! "a" = Some (code Unchanged).
Proof.
  split; [reflexivity|].
  destruct (C6_diff_set_is_every_classified_path Scenario.local_same eq_refl)
    as (self' & Hb & _ & _ & Hu).
  exists self'. split; [exact Hb|].
  apply (Hu "a" (Scenario.fs 10 100) (Scenario.fs 10 100)).
  - vm_compute; reflexivity.
  - vm_compute; reflexivity.
  - reflexivity.
  - simpl. lia.
Defined.

End differ_claims.

(** ** Reasoning about computations over the module state *)

Section monad.

Context {A B : Type}.

Lemma bind_run (m : M A) (f : A → M B) g :
  (m ≫= f) g
  = match m g with
    | (Ok a, g') => f a g'
    | (Raise e, g') => (Raise e, g')
    end.
Proof. done. Qed.

Lemma keeps_bind {X} (proj : globals → X) (m : M A) (f : A → M B) :
  keeps proj m → (∀ a, keeps proj (f a)) → keeps proj (m ≫= f).
Proof.
  intros Hm Hf g. rewrite bind_run. specialize (Hm g).
  destruct (m g) as [[a|e] g']; simpl in *; [|done].
  by rewrite Hf.
Qed.

Lemma emits_only_bind P (m : M A) (f : A → M B) :
  emits_only P m → (∀ a, emits_only P (f a)) → emits_only P (m ≫= f).
Proof.
  intros Hm Hf g. rewrite bind_run. destruct (Hm g) as (evs & Ht & Hevs).
  destruct (m g) as [[a|e] g']; simpl in *; [|by eauto].
  destruct (Hf a g') as (evs' & Ht' & Hevs').
  exists (evs ++ evs'). rewrite Ht', Ht, app_assoc. split; [done|].
  by apply Forall_app.
Qed.

End monad.

Section monad_primitives.

Context {A X : Type} (proj : globals → X) (P : event → Prop).

Lemma keeps_ret (a : A) : keeps proj (mret a).
Proof. done. Qed.

Lemma keeps_lift (r : Result A) : keeps proj (lift r).
Proof. done. Qed.

Lemma keeps_gets (p : globals → A) : keeps proj (gets p).
Proof. done. Qed.

Lemma keeps_modify (f : globals → globals) :
  (∀ g, proj (f g) = proj g) → keeps proj (modify f).
Proof. intros Hf g. apply Hf. Qed.

Lemma keeps_for_each (l : list A) (body : A → M unit) :
  (∀ a, keeps proj (body a)) → keeps proj (for_each l body).
Proof.
  intros Hb. induction l as [|a l IH]; [done|].
  apply keeps_bind; [apply Hb|done].
Qed.

Lemma emits_only_ret (a : A) : emits_only P (mret a).
Proof. intros g. exists []. by rewrite app_nil_r. Qed.

Lemma emits_only_lift (r : Result A) : emits_only P (lift r).
Proof. intros g. exists []. by rewrite app_nil_r. Qed.

Lemma emits_only_gets (p : globals → A) : emits_only P (gets p).
Proof. intros g. exists []. by rewrite app_nil_r. Qed.

Lemma emits_only_modify (f : globals → globals) :
  (∀ g, trace (f g) = trace g) → emits_only P (modify f).
Proof. intros Hf g. exists []. simpl. by rewrite Hf, app_nil_r. Qed.

Lemma emits_only_emit (e : event) : P e → emits_only P (modify (emit e)).
Proof. intros He g. exists [e]. split; [done|]. by constructor. Qed.

Lemma emits_only_for_each (l : list A) (body : A → M unit) :
  (∀ a, emits_only P (body a)) → emits_only P (for_each l body).
Proof.
  intros Hb. induction l as [|a l IH].
  - intros g. exists []. by rewrite app_nil_r.
  - apply emits_only_bind; [apply Hb|done].
Qed.

End monad_primitives.

Create HintDb frame discriminated.

#[local] Hint Resolve keeps_ret keeps_lift keeps_gets keeps_for_each : frame.
#[local] Hint Resolve emits_only_ret emits_only_lift emits_only_gets
  emits_only_for_each : frame.
#[local] Hint Extern 1 (keeps _ (modify _)) =>
  (apply keeps_modify; intros ?; reflexivity) : frame.
#[local] Hint Extern 2 (emits_only _ (modify _)) =>
  (apply emits_only_modify; intros ?; reflexivity) : frame.

(** Walks through the binds and branches of a computation, leaving the
    side conditions on the events it emits. *)
Ltac frame :=
  repeat first
    [ progress intros
    | solve [eauto with frame]
    | match goal with
      | |- keeps _ (if ?b then _ else _) => destruct b
      | |- emits_only _ (if ?b then _ else _) => destruct b
      | |- keeps _ (match ?x with _ => _ end) => destruct x
      | |- emits_only _ (match ?x with _ => _ end) => destruct x
      | |- keeps _ (_ ≫= _) => apply keeps_bind
      | |- emits_only _ (_ ≫= _) => apply emits_only_bind
      | |- emits_only _ (modify (emit _)) => apply emits_only_emit
      end ].

(** ** The job functions and the loops of [sync] *)

Lemma not_delete_line (line : cstr) ending :
  (Some ylw, "Delete: ") ∉ line → (Some ylw, " Delete: ") ∉ line →
  not_delete (Stdout [line] ending).
Proof.
  intros H1 H2. unfold not_delete. simpl.
  apply bool_decide_eq_false. by intros [?|?].
Qed.

(** The job functions touch nothing but the job counter and the trace. *)
Lemma keeps_print args : keeps flag_of (print args).
Proof. unfold print. frame. Qed.

Lemma keeps_run argv : keeps flag_of (run argv).
Proof. unfold run. frame. Qed.

Lemma keeps_bump : keeps flag_of bump_counter.
Proof. unfold bump_counter. frame. Qed.

#[local] Hint Resolve keeps_print keeps_run keeps_bump : frame.

Lemma keeps_cpyR source dest : keeps flag_of (cpyR source dest).
Proof. unfold cpyR. frame. Qed.

Lemma keeps_cpyL dest source : keeps flag_of (cpyL dest source).
Proof. unfold cpyL. frame. Qed.

Lemma keeps_delL l r : keeps flag_of (delL l r).
Proof. unfold delL. frame. Qed.

Lemma keeps_delR l r : keeps flag_of (delR l r).
Proof. unfold delR. frame. Qed.

Lemma keeps_null l r : keeps flag_of (null l r).
Proof. unfold null, skip_. frame. Qed.

#[local] Hint Resolve keeps_cpyR keeps_cpyL keeps_delL keeps_delR keeps_null : frame.

Lemma keeps_conflict source dest : keeps flag_of (conflict source dest).
Proof. unfold conflict, skip_. frame. Qed.

#[local] Hint Resolve keeps_conflict : frame.

Lemma keeps_LOGIC (i j : nat) row (fn : string → string → M unit) :
  LOGIC !! i = Some row → row !! j = Some fn →
  ∀ a b, keeps flag_of (fn a b).
Proof.
  unfold LOGIC. intros Hrow Hfn a b.
  destruct i as [|[|[|[|i]]]]; simplify_eq/=;
    destruct j as [|[|[|[|j]]]]; simplify_eq/=; eauto with frame.
Qed.

Lemma keeps_sync_lcl_body f key : keeps flag_of (sync_lcl_body f key).
Proof. unfold sync_lcl_body, skip_. frame. Qed.

Lemma keeps_sync_rmt_body f key : keeps flag_of (sync_rmt_body f key).
Proof. unfold sync_rmt_body, skip_. frame. Qed.

Lemma keeps_sync_recover_body f key : keeps flag_of (sync_recover_body f key).
Proof. unfold sync_recover_body, skip_. frame. Qed.

Lemma keeps_sync_logic_body f key : keeps flag_of (sync_logic_body f key).
Proof.
  unfold sync_logic_body. intros g. rewrite !bind_run. unfold lift, getitem, index.
  destruct (d_dif (lcl f) !! key) as [i|]; [|done].
  destruct (LOGIC !! i) as [row|] eqn:Hrow; [|done]. rewrite !bind_run.
  destruct (d_dif (rmt f) !! key) as [j|]; [|done]. rewrite !bind_run.
  destruct (row !! j) as [fn|] eqn:Hfn; [|done].
  by apply (keeps_LOGIC i j row fn).
Qed.

#[local] Hint Resolve keeps_sync_lcl_body keeps_sync_rmt_body
  keeps_sync_recover_body keeps_sync_logic_body : frame.

Lemma keeps_sync f l r i : keeps flag_of (sync f l r i).
Proof. unfold sync, skip_. frame. Qed.

#[local] Hint Resolve keeps_sync : frame.

(** What the one-sided loops can emit. *)
Lemma cpyR_not_delete source dest : emits_only not_delete (cpyR source dest).
Proof.
  unfold cpyR, bump_counter, print, run. frame.
  - apply not_delete_line; set_solver.
  - apply not_delete_line; set_solver.
  - done.
Qed.

Lemma cpyL_not_delete dest source : emits_only not_delete (cpyL dest source).
Proof.
  unfold cpyL, bump_counter, print, run. frame.
  - apply not_delete_line; set_solver.
  - apply not_delete_line; set_solver.
  - done.
Qed.

#[local] Hint Resolve cpyR_not_delete cpyL_not_delete : frame.

Lemma sync_lcl_body_not_delete f key : emits_only not_delete (sync_lcl_body f key).
Proof.
  unfold sync_lcl_body, skip_, print. frame; apply not_delete_line; set_solver.
Qed.

Lemma sync_rmt_body_not_delete f key : emits_only not_delete (sync_rmt_body f key).
Proof.
  unfold sync_rmt_body, skip_, print. frame; apply not_delete_line; set_solver.
Qed.

#[local] Hint Resolve sync_lcl_body_not_delete sync_rmt_body_not_delete : frame.

(** ** Claims about the reconciler *)

Lemma sorted_empty : sorted ∅ = [].
Proof. unfold sorted. by rewrite elements_empty. Qed.

Lemma flag_of_recover g g' : flag_of g' = flag_of g → recover g' = recover g.
Proof. unfold flag_of. by intros [= _ _ ? _ _ _ _ _ _]. Qed.

Lemma flag_of_dry_run g g' : flag_of g' = flag_of g → dry_run g' = dry_run g.
Proof. unfold flag_of. by intros [= ? _ _ _ _ _ _ _ _]. Qed.

(** The decision table of §4.4 and the table of functions [LOGIC] agree on
    all sixteen pairs of classes. *)
Lemma LOGIC_is_Table (l r : ChangeClass) :
  (row ← index LOGIC (code l); index row (code r)) = Ok (perform (Table l r)).
Proof. by destruct l, r. Qed.

(** The six functions of the table are pairwise different: what they do
    in a dry run on the paths [s] and [d] tells them apart. *)
Lemma perform_inj (a b : Action) : perform a = perform b → a = b.
Proof.
  intros H.
  assert (printed (trace (perform a "s" "d"
            (startup true false false false false Sinc.empty)).2)
          = printed (trace (perform b "s" "d"
            (startup true false false false false Sinc.empty)).2)) as Ht
    by (by rewrite H).
  destruct a, b; try done; vm_compute in Ht; discriminate.
Qed.

(** While [recover] is false, the [inter] argument of [sync] is never
    looked at. *)
Lemma sync_without_recover f l r i g :
  recover g = false → sync f l r i g = sync f l r ∅ g.
Proof.
  intros Hrec. unfold sync. rewrite !bind_run.
  pose proof (keeps_for_each flag_of (sorted l) (sync_lcl_body f)
                (keeps_sync_lcl_body f) g) as H1.
  destruct (for_each (sorted l) (sync_lcl_body f) g) as [[[]|e] g1]; [|done].
  rewrite !bind_run.
  pose proof (keeps_for_each flag_of (sorted r) (sync_rmt_body f)
                (keeps_sync_rmt_body f) g1) as H2.
  destruct (for_each (sorted r) (sync_rmt_body f) g1) as [[[]|e] g2]; [|done].
  rewrite !bind_run. simpl in *.
  assert (recover g2 = false) as Hg2.
  { rewrite <- Hrec. apply flag_of_recover. by rewrite H2. }
  unfold gets. by rewrite Hg2.
Qed.

(** The recovery loop proper: what its body does for a path that both
    listings hold. *)
Lemma sync_recover_body_spec f key l r :
  d_tmp (lcl f) !! key = Some l → d_tmp (rmt f) !! key = Some r →
  sync_recover_body f key
  = if decide (bytesize l = bytesize r) then skip_
    else if decide (datetime l > datetime r)%Z
         then cpyR (data_path (lcl f) +:+ key) (data_path (rmt f) +:+ key)
    else if decide (datetime l < datetime r)%Z
         then cpyL (data_path (lcl f) +:+ key) (data_path (rmt f) +:+ key)
    else skip_.
Proof.
  intros Hl Hr. unfold sync_recover_body, getitem. rewrite Hl, Hr.
  change ((lift (Ok l) ≫= ?k)) with (k l). cbv beta.
  change ((lift (Ok r) ≫= ?k)) with (k r). cbv beta.
  repeat case_bool_decide; repeat case_decide; try done; lia.
Qed.

Section reconciler_claims.

Implicit Types (f : direct) (key : string) (g : globals).

(** C7. In [sync], a path of the local-only partition whose class is 2
    (deleted) makes the loop body do nothing at all, and likewise for
    the remote-only partition; neither loop ever emits a delete job
    (no [rclone delete] is run and no [Delete:] line is printed); and
    [sync] as a whole emits no delete job when the [inter] partition is
    empty, so that a delete can only come from the loop over [inter]. *)
Theorem C7_one_sided_loops_never_delete f (lcl_dif rmt_dif : gset string) :
  (∀ key g, d_dif (lcl f) !! key = Some (code Deleted) →
            sync_lcl_body f key g = (Ok (), g)) ∧
  (∀ key g, d_dif (rmt f) !! key = Some (code Deleted) →
            sync_rmt_body f key g = (Ok (), g)) ∧
  emits_only not_delete (for_each (sorted lcl_dif) (sync_lcl_body f)) ∧
  emits_only not_delete (for_each (sorted rmt_dif) (sync_rmt_body f)) ∧
  emits_only not_delete (sync f lcl_dif rmt_dif ∅).
Proof.
  split; [|split; [|split; [|split]]].
  - intros key g H. unfold sync_lcl_body, getitem. by rewrite H.
  - intros key g H. unfold sync_rmt_body, getitem. by rewrite H.
  - frame.
  - frame.
  - unfold sync, skip_, print. rewrite sorted_empty. frame.
    apply not_delete_line; set_solver.
Qed.

Lemma C7_one_sided_loops_never_delete_witness :
  let f := {| lcl := with_d_old {[ "a" := Scenario.fs 10 100 ]}
                       (data_init BASE_L "cpp");
              rmt := data_init BASE_R "cpp";
              direct_path := "cpp" |} in
  ∃ f', direct_build_dif f = Ok f'
    ∧ d_dif (lcl f') !! "a" = Some (code Deleted)
    ∧ sync_lcl_body f' "a" (startup false false false false false Sinc.empty)
      = (Ok (), startup false false false false false Sinc.empty).
Proof.
  intros f.
  destruct (direct_build_dif f) as [f'|e] eqn:E; [|by vm_compute in E].
  assert (d_dif (lcl f') !! "a" = Some (code Deleted)) as Hd.
  { vm_compute in E. injection E as <-. vm_compute. reflexivity. }
  exists f'. split; [reflexivity|]. split; [exact Hd|].
  apply (C7_one_sided_loops_never_delete f' ∅ ∅). exact Hd.
Defined.

(** C1: the code at the failing input. Scenario C of §8 (folder [cpp]
    synced before with [a] of size 10 and time 100; [a] now has size 20
    and time 150 locally and is untouched remotely), run without the
    recovery flag. The path [a] is in the [inter] partition with local
    class 1 (modified) and remote class 0 (unchanged), for which the
    table gives Push; yet the dry pass counts no job and prints no job
    line. *)
Theorem C1_inter_is_skipped_without_recover :
  ∃ f g,
    Scenario.until_dry_pass Scenario.world_C "cpp"
      (startup false false false false false Scenario.master_a) = (Ok f, g)
    ∧ recover g = false
    ∧ "a" ∈ inter f
    ∧ d_dif (lcl f) !! "a" = Some (code Modified)
    ∧ d_dif (rmt f) !! "a" = Some (code Unchanged)
    ∧ Table Modified Unchanged = Push
    ∧ total_jobs g = 0%Z
    ∧ printed (trace g)
      = [ [plain EmptyString];
          [col grn "Have:"; plain (qt "cpp" +:+ ", can sync")];
          [col grn "Crawling: " ++ plain (qt "cpp")];
          [plain EmptyString];
          [plain "Reading last state"];
          [col grn "Dry pass:"] ].
Proof. refine (run_returns _ _ _). vm_compute. reflexivity. Qed.

(** C2: the code at the failing input. Folder [cpp] was synced while
    empty; both sides now hold [x] with size 10 and time 100, and the
    program is run with the recovery flag. The two entries are tied, so
    no action is due; yet the dry pass goes on from the recovery loop to
    the table, finds class 3 (created) on both sides, and emits a
    conflict with its two copies. *)
Theorem C2_recover_also_runs_the_table :
  ∃ f g,
    Scenario.until_dry_pass Scenario.world_tie "cpp"
      (startup false false true false false Scenario.master_none) = (Ok f, g)
    ∧ recover g = true
    ∧ "x" ∈ inter f
    ∧ d_tmp (lcl f) !! "x" = Some (Scenario.fs 10 100)
    ∧ d_tmp (rmt f) !! "x" = Some (Scenario.fs 10 100)
    ∧ total_jobs g = 2%Z
    ∧ printed (trace g)
      = [ [plain EmptyString];
          [col grn "Have:"; plain (qt "cpp" +:+ ", can sync")];
          [col grn "Crawling: " ++ plain (qt "cpp")];
          [plain EmptyString];
          [plain "Reading last state"];
          [col grn "Dry pass:"];
          [col ylw "Running recover"];
          [col red "Conflict: " ++ plain "/home/conor/cpp/x"];
          [col cyn "Push: " ++ plain "/home/conor/cpp/x.lcl_conflict"];
          [col mgt "Pull: " ++ plain "onedrive:cpp/x.rmt_conflict"] ].
Proof. refine (run_returns _ _ _). vm_compute. reflexivity. Qed.

End reconciler_claims.

(** ** The packed baseline tree *)

Section tree.

Implicit Types (n new : nest) (chain : list string) (c : string).

Lemma _have_folder_chain n chain :
  chain ≠ [] → _have n chain = Ok (folder_chain n chain).
Proof.
  revert n. induction chain as [|c [|c' rest] IH]; intros n Hne; [done| |].
  - simpl. destruct (fold n !! c); [|done].
    by rewrite bool_decide_eq_true_2 by eauto.
  - change (_have n (c :: c' :: rest))
      with (match fold n !! c with
            | Some n' => _have n' (c' :: rest)
            | None => Ok false
            end).
    change (folder_chain n (c :: c' :: rest))
      with (match fold n !! c with
            | Some n' => folder_chain n' (c' :: rest)
            | None => false
            end).
    destruct (fold n !! c); [by apply IH|done].
Qed.

(** [have] never raises: it tells whether the whole path is a chain of
    folders of the tree. *)
Lemma have_folder_chain n path : have n path = Ok (folder_chain n (split path)).
Proof. apply _have_folder_chain, split_nonempty. Qed.

Lemma _get_branch_present n chain :
  folder_chain n chain = true → ∃ b, _get_branch n chain = Ok b.
Proof.
  revert n. induction chain as [|c rest IH]; intros n; simpl; [by eauto|].
  unfold getitem. destruct (fold n !! c) as [n'|]; [|done]. apply IH.
Qed.

Lemma _get_branch_absent n chain :
  folder_chain n chain = false → _get_branch n chain = Raise KeyError.
Proof.
  revert n. induction chain as [|c rest IH]; intros n; simpl; [done|].
  unfold getitem. destruct (fold n !! c) as [n'|]; [|done]. apply IH.
Qed.

Lemma _merge_get_branch n chain new :
  chain ≠ [] →
  ∃ n', _merge n chain new = Ok n' ∧ _get_branch n' chain = Ok new.
Proof.
  revert n. induction chain as [|c [|c' rest] IH]; intros n Hne; [done| |].
  - eexists. split; [done|]. simpl. unfold getitem.
    by rewrite lookup_insert_eq.
  - destruct (IH (default Sinc.empty (fold n !! c))) as (child' & Hm & Hg); [done|].
    change (_merge n (c :: c' :: rest) new)
      with (child' ← _merge (default Sinc.empty (fold n !! c)) (c' :: rest) new;
            Ok (Nest (<[c := child']> (fold n)) (file n))).
    rewrite Hm. eexists. split; [done|].
    change (_get_branch ?t (c :: c' :: rest))
      with (n' ← getitem (fold t) c; _get_branch n' (c' :: rest)).
    simpl. unfold getitem. by rewrite lookup_insert_eq.
Qed.

(** [_get_min] returns what it was given followed by the names of the
    longest chain of folders that are present and, when the chain does
    not reach the last name, by the first name that is missing. *)
Lemma _get_min_spec rest n c pre :
  ∃ k, _get_min n (c :: rest) (pre ++ [c]) = Ok (pre ++ take (S k) (c :: rest))
    ∧ k ≤ length rest
    ∧ folder_chain n (take k (c :: rest)) = true
    ∧ (k < length rest → folder_chain n (take (S k) (c :: rest)) = false).
Proof.
  revert n c pre. induction rest as [|c1 rest IH]; intros n c pre.
  - exists 0. simpl. repeat split; [done|lia].
  - change (_get_min n (c :: c1 :: rest) (pre ++ [c]))
      with (match fold n !! c with
            | None => Ok (pre ++ [c])
            | Some n' => _get_min n' (c1 :: rest) ((pre ++ [c]) ++ [c1])
            end).
    destruct (fold n !! c) as [n'|] eqn:Hc.
    + destruct (IH n' c1 (pre ++ [c])) as (k & Hk & Hle & Hpre & Hnext).
      exists (S k). rewrite Hk. repeat split.
      * by rewrite <- app_assoc.
      * simpl. lia.
      * change (take (S k) (c :: c1 :: rest)) with (c :: take k (c1 :: rest)).
        simpl. by rewrite Hc.
      * intros Hlt.
        change (take (S (S k)) (c :: c1 :: rest))
          with (c :: take (S k) (c1 :: rest)).
        simpl in Hlt. cbn [folder_chain]. rewrite Hc. apply Hnext. lia.
    + exists 0. repeat split; [simpl; lia|].
      intros _. simpl. by rewrite Hc.
Qed.

End tree.

Section tree_claims.

(** C9, as the claim states it, fails: in an empty tree [get_min]
    answers the first name of the path, which is no folder of the tree. *)
Lemma C9_counterexample :
  get_min Sinc.empty "a/b" = Ok "a"
  ∧ have Sinc.empty "a" = Ok false
  ∧ folder_chain Sinc.empty (split "a") = false.
Proof. by vm_compute. Qed.

(** C9, amended. [get_min] never raises. What it returns is the first
    [k + 1] names of the path, joined by slashes, where the first [k]
    names are a chain of folders present in the tree; unless the
    returned prefix is the whole path, its last name is the first folder
    that is missing, so the prefix itself is not present. *)
Theorem C9_get_min_one_past_the_present_chain (master : nest) (path : string) :
  ∃ k, get_min master path = Ok (join (take (S k) (split path)))
    ∧ k < length (split path)
    ∧ folder_chain master (take k (split path)) = true
    ∧ (S k < length (split path) →
       folder_chain master (take (S k) (split path)) = false).
Proof.
  unfold get_min. destruct (split_cons path) as (c & rest & ->).
  destruct (_get_min_spec rest master c []) as (k & Hk & Hle & Hpre & Hnext).
  exists k. change ([] ++ [c]) with [c] in Hk.
  change (index (c :: rest) 0) with (Ok c). cbn [mbind Result_bind].
  rewrite Hk. cbn [mbind Result_bind app].
  repeat split; [simpl; lia|done|].
  intros Hlt. apply Hnext. simpl in Hlt. lia.
Qed.

End tree_claims.

(** ** [pack] and [unpack] *)

Section packing.

#[local] Arguments join : simpl never.

Implicit Types (n : nest) (chain names : list string) (c k key : string)
  (d : gmap string FileState) (v : FileState).

Lemma nest_size_child fo fi k (x : nest) :
  fo !! k = Some x → nest_size x < nest_size (Nest fo fi).
Proof.
  intros Hk. cbn [nest_size fold]. apply Nat.lt_succ_r. revert k x Hk.
  set (P := λ (r : nat) (m : gmap string nest),
         ∀ k (x : nest), m !! k = Some x → nest_size x ≤ r).
  change (P (map_fold (λ _ x acc, nest_size x + acc) 0 fo) fo).
  apply map_fold_weak_ind; unfold P.
  - intros k x. by rewrite lookup_empty.
  - intros i y m r Hi IH k x. destruct (decide (k = i)) as [->|Hne].
    + rewrite lookup_insert_eq. intros [= ->]. lia.
    + rewrite lookup_insert_ne by done. intros Hx.
      specialize (IH k x Hx). lia.
Qed.

(** Induction on a packed dictionary: the folders it holds come first. *)
Lemma nest_children_ind (P : nest → Prop) :
  (∀ n, (∀ k (x : nest), fold n !! k = Some x → P x) → P n) → ∀ n, P n.
Proof.
  intros Hstep n. remember (nest_size n) as s eqn:Hs. revert n Hs.
  induction s as [s IH] using lt_wf_ind. intros n ->.
  apply Hstep. intros k x Hx. apply (IH (nest_size x)); [|done].
  destruct n as [fo fi]. by apply (nest_size_child fo fi k).
Qed.

Lemma lookup_chain_empty chain : lookup_chain Sinc.empty chain = None.
Proof. by destruct chain as [|c [|c' rest]]. Qed.

Lemma wf_empty : wf Sinc.empty.
Proof. constructor; intros k x; by rewrite lookup_empty. Qed.

Lemma wf_child n k (x : nest) : wf n → fold n !! k = Some x → no_slash k ∧ wf x.
Proof. intros [fo fi Hfi Hfo] Hk. by apply Hfo. Qed.

Lemma wf_file n k v : wf n → file n !! k = Some v → no_slash k.
Proof. intros [fo fi Hfi Hfo] Hk. by apply (Hfi k v). Qed.

(** [insert] puts the entry at the chain of names, keeps every other
    entry, and raises only when there is no name. *)
Lemma insert_lookup names n v :
  names ≠ [] →
  ∃ n', insert n names v = Ok n'
    ∧ (wf n → Forall no_slash names → wf n')
    ∧ ∀ chain, lookup_chain n' chain
               = if decide (chain = names) then Some v else lookup_chain n chain.
Proof.
  revert n. induction names as [|c [|c' rest] IH]; intros n Hne; [done| |].
  - eexists. split; [done|]. split.
    + intros Hwf Hns. inversion_clear Hns as [|?? Hc _].
      destruct Hwf as [fo fi Hfi Hfo]. constructor; [|done].
      intros k x. simpl. destruct (decide (k = c)) as [->|Hkc]; [done|].
      rewrite lookup_insert_ne by done. apply Hfi.
    + intros [|c0 [|c1 r]]; cbn [lookup_chain file fold].
      * by rewrite decide_False.
      * destruct (decide (c0 = c)) as [->|Hc0].
        -- by rewrite lookup_insert_eq, decide_True.
        -- rewrite lookup_insert_ne by done. rewrite decide_False; [done|].
           by intros [= ?].
      * by rewrite decide_False.
  - destruct (IH (default Sinc.empty (fold n !! c))) as (child' & Hi & Hwf' & Hl);
      [done|].
    change (insert n (c :: c' :: rest) v)
      with (child' ← insert (default Sinc.empty (fold n !! c)) (c' :: rest) v;
            Ok (Nest (<[c := child']> (fold n)) (file n))).
    rewrite Hi. eexists. split; [done|]. split.
    + intros Hwf Hns. inversion_clear Hns as [|?? Hc Hrest].
      assert (wf child') as Hchild.
      { apply Hwf'; [|done]. destruct (fold n !! c) as [x|] eqn:Hx; simpl.
        - by apply (wf_child n c x).
        - apply wf_empty. }
      destruct Hwf as [fo fi Hfi Hfo]. constructor; [done|].
      intros k x. simpl. destruct (decide (k = c)) as [->|Hkc].
      * rewrite lookup_insert_eq. by intros [= <-].
      * rewrite lookup_insert_ne by done. apply Hfo.
    + intros [|c0 [|c1 r]].
      * by rewrite decide_False.
      * cbn [lookup_chain file fold]. by rewrite decide_False.
      * change (lookup_chain ?t (c0 :: c1 :: r))
          with (match fold t !! c0 with
                | Some n' => lookup_chain n' (c1 :: r)
                | None => None
                end).
        cbn [fold]. destruct (decide (c0 = c)) as [->|Hc0].
        -- rewrite lookup_insert_eq, Hl.
           destruct (decide (c1 :: r = c' :: rest)) as [->|Hr].
           ++ by rewrite decide_True.
           ++ rewrite decide_False by (by intros [= ? ?]; apply Hr; f_equal).
              destruct (fold n !! c); [done|].
              apply lookup_chain_empty.
        -- rewrite lookup_insert_ne by done.
           rewrite decide_False; [done|]. by intros [= ? _].
Qed.

(** [pack] never raises; the tree it builds holds, at the chain of
    names of every key, the entry of that key and nothing else. *)
Lemma pack_lookup d :
  ∃ n, pack d = Ok n ∧ wf n ∧ ∀ key, lookup_chain n (split key) = d !! key.
Proof.
  unfold pack.
  set (P := λ (r : Result nest) (m : gmap string FileState),
         ∃ n, r = Ok n ∧ wf n ∧ ∀ key, lookup_chain n (split key) = m !! key).
  change (P (map_fold (λ k v acc, n ← acc; insert n (split k) v) (Ok Sinc.empty) d) d).
  apply map_fold_weak_ind; unfold P.
  - exists Sinc.empty. split; [done|]. split; [apply wf_empty|].
    intros key. by rewrite lookup_chain_empty, lookup_empty.
  - intros i x m r Hi (n & -> & Hwf & Hl).
    destruct (insert_lookup (split i) n x (split_nonempty i))
      as (n' & Hins & Hwf' & Hl').
    exists n'. split; [done|]. split; [apply Hwf'; [done|apply split_no_slash]|].
    intros key. rewrite Hl'. destruct (decide (key = i)) as [->|Hne].
    + by rewrite decide_True, lookup_insert_eq.
    + rewrite lookup_insert_ne by done. rewrite decide_False; [done|].
      intros Hs. by apply split_inj in Hs.
Qed.

Lemma split_join l : l ≠ [] → Forall no_slash l → split (join l) = l.
Proof.
  induction l as [|c [|c' rest] IH]; intros Hne Hns; [done| |].
  - inversion_clear Hns. by apply split_name.
  - inversion_clear Hns as [|?? Hc Hrest].
    rewrite join_cons, split_name_slash by done. f_equal. by apply IH.
Qed.

Lemma unpack_unfold n d path :
  unpack n d path
  = map_fold (λ k x d, unpack x d (path +:+ k +:+ "/"))
      (map_fold (λ k v d, <[path +:+ k := v]> d) d (file n)) (fold n).
Proof. by destruct n. Qed.

Lemma unpack_files (fi : gmap string FileState) d path key :
  map_fold (λ k v d, <[path +:+ k := v]> d) d fi !! key
  = match strip path key ≫= (fi !!.) with
    | Some v => Some v
    | None => d !! key
    end.
Proof.
  revert key.
  set (P := λ (r m : gmap string FileState),
         ∀ key, r !! key = match strip path key ≫= (m !!.) with
                           | Some v => Some v
                           | None => d !! key
                           end).
  change (P (map_fold (λ k v d, <[path +:+ k := v]> d) d fi) fi).
  apply map_fold_weak_ind; unfold P.
  - intros key. destruct (strip path key); simpl; [|done].
    by rewrite lookup_empty.
  - intros i x m r Hi IH key. destruct (decide (key = path +:+ i)) as [->|Hne].
    + rewrite lookup_insert_eq, strip_append. simpl.
      by rewrite lookup_insert_eq.
    + rewrite lookup_insert_ne by done. rewrite IH.
      destruct (strip path key) as [rest|] eqn:Hs; simpl; [|done].
      rewrite lookup_insert_ne; [done|]. intros <-.
      by apply strip_Some in Hs.
Qed.

Lemma unpack_folders (fo : gmap string nest) d1 path :
  (∀ k (x : nest), fo !! k = Some x → no_slash k ∧ flattens x) →
  ∀ key,
    map_fold (λ k x d, unpack x d (path +:+ k +:+ "/")) d1 fo !! key
    = match strip path key ≫= folder_entry fo with
      | Some v => Some v
      | None => d1 !! key
      end.
Proof.
  set (P := λ (r : gmap string FileState) (m : gmap string nest),
         (∀ k (x : nest), m !! k = Some x → no_slash k ∧ flattens x) →
         ∀ key, r !! key = match strip path key ≫= folder_entry m with
                           | Some v => Some v
                           | None => d1 !! key
                           end).
  change (P (map_fold (λ k x d, unpack x d (path +:+ k +:+ "/")) d1 fo) fo).
  apply map_fold_weak_ind; unfold P; clear P.
  - intros _ key. destruct (strip path key) as [rest|]; simpl; [|done].
    unfold folder_entry.
    destruct (split rest) as [|c0 [|c1 rs]]; by rewrite ?lookup_empty.
  - intros i x m r Hi IH Hm key.
    destruct (Hm i x) as [Hns Hx]; [by rewrite lookup_insert_eq|].
    assert (∀ key, r !! key = match strip path key ≫= folder_entry m with
                              | Some v => Some v
                              | None => d1 !! key
                              end) as Hr.
    { apply IH. intros k y Hk. apply Hm. rewrite lookup_insert_ne; [done|].
      intros ->. by rewrite Hi in Hk. }
    rewrite Hx. unfold entry_at. rewrite strip_app.
    destruct (strip path key) as [rest|] eqn:Hs; simpl; [|by rewrite Hr, Hs].
    rewrite (strip_name_split i rest Hns). unfold folder_entry.
    specialize (Hr key). rewrite Hs in Hr. simpl in Hr. unfold folder_entry in Hr.
    pose proof (split_no_slash rest) as Hall.
    destruct (split rest) as [|c0 [|c1 rs]]; simpl; [done..|].
    destruct (decide (c0 = i)) as [->|Hne]; simpl.
    + rewrite lookup_insert_eq. rewrite Hi in Hr.
      rewrite split_join; [|done|by inversion_clear Hall].
      by rewrite Hr.
    + by rewrite lookup_insert_ne.
Qed.

(** What [unpack] computes on a tree none of whose names holds a slash. *)
Lemma unpack_lookup n : wf n → flattens n.
Proof.
  induction n as [n IH] using nest_children_ind. intros Hwf d path key.
  rewrite unpack_unfold, unpack_folders.
  2:{ intros k x Hk. destruct (wf_child n k x Hwf Hk) as [Hns Hx].
      split; [done|]. by apply (IH k). }
  rewrite unpack_files. unfold entry_at.
  destruct (strip path key) as [rest|] eqn:Hs; simpl; [|done].
  unfold folder_entry. pose proof (split_no_slash rest) as Hall.
  pose proof (join_split rest) as Hj.
  destruct (split rest) as [|c0 [|c1 rs]] eqn:Hsp; simpl.
  - by destruct (split_nonempty rest).
  - change (join [c0]) with c0 in Hj. by subst c0.
  - assert (file n !! rest = None) as Hnone.
    { destruct (file n !! rest) as [v|] eqn:Hv; [|done].
      pose proof (wf_file n rest v Hwf Hv) as Hns.
      apply split_name in Hns. by rewrite Hns in Hsp. }
    rewrite Hnone.
    change (lookup_chain n (c0 :: c1 :: rs))
      with (match fold n !! c0 with
            | Some n' => lookup_chain n' (c1 :: rs)
            | None => None
            end).
    done.
Qed.

(** Flattening what was packed, into a dictionary [d0]: the packed
    entries, then those of [d0] under other keys. *)
Lemma unpack_pack d d0 :
  ∃ n, pack d = Ok n ∧ unpack n d0 EmptyString = d ∪ d0.
Proof.
  destruct (pack_lookup d) as (n & Hp & Hwf & Hl).
  exists n. split; [done|]. apply map_eq. intros key.
  rewrite (unpack_lookup n Hwf). unfold entry_at.
  change (strip EmptyString key) with (Some key).
  cbn [mbind option_bind]. rewrite Hl, lookup_union.
  by destruct (d !! key), (d0 !! key).
Qed.

End packing.

Section round_trip_claims.

Implicit Types (tree : nest) (path : string) (snapshot : gmap string FileState).

(** The round trip through the tree proper: what is merged at a path is
    what [get_branch] finds there, and its flattening into a dictionary
    [d0] is the snapshot on top of [d0]. Into an empty dictionary it is
    the snapshot itself. *)
Lemma round_trip_into tree path snapshot d0 :
  ∃ packed tree' branch,
    pack snapshot = Ok packed
    ∧ merge tree path packed = Ok tree'
    ∧ get_branch tree' path = Ok branch
    ∧ unpack branch d0 EmptyString = snapshot ∪ d0
    ∧ unpack branch ∅ EmptyString = snapshot.
Proof.
  destruct (pack_lookup snapshot) as (packed & Hp & _).
  destruct (_merge_get_branch tree (split path) packed (split_nonempty path))
    as (tree' & Hm & Hg).
  exists packed, tree', packed. repeat (split; [done|]).
  destruct (unpack_pack snapshot d0) as (n & Hn & Hu).
  destruct (unpack_pack snapshot ∅) as (n' & Hn' & Hu').
  rewrite Hp in Hn, Hn'. injection Hn as <-. injection Hn' as <-.
  split; [done|]. by rewrite Hu', (right_id ∅ (∪)).
Qed.

(** [round_trip] never raises; it returns the snapshot on top of
    whatever the default dictionary of [unpack] already held, and
    leaves that result in the default dictionary. *)
Lemma round_trip_run tree path snapshot g :
  ∃ tree',
    Scenario.round_trip tree path snapshot g
    = (Ok (tree', snapshot ∪ unpack_d g),
       set_unpack_d (snapshot ∪ unpack_d g) g).
Proof.
  destruct (round_trip_into tree path snapshot (unpack_d g))
    as (packed & tree' & branch & Hp & Hm & Hg & Hu & _).
  exists tree'. unfold Scenario.round_trip, unpack_default, lift.
  rewrite !bind_run, Hp. rewrite !bind_run, Hm. rewrite !bind_run, Hg.
  rewrite !bind_run. unfold gets. rewrite !bind_run. by rewrite Hu.
Qed.

(** C8: the code at the failing input. In one run of the program the
    snapshot [{a}] goes through the round trip at [cpp] and then the
    snapshot [{b}] at [test]. The second flattening is not [{b}]: it
    also holds [a], left in the default dictionary of [unpack] by the
    first. *)
Theorem C8_second_round_trip_accumulates :
  ∃ flat g,
    Scenario.two_round_trips
      (startup false false false false false Sinc.empty) = (Ok flat, g)
    ∧ flat = {[ "a" := Scenario.fs 10 100; "b" := Scenario.fs 7 70 ]}
    ∧ flat ≠ {[ "b" := Scenario.fs 7 70 ]}.
Proof. refine (run_returns _ _ _). vm_compute. reflexivity. Qed.

End round_trip_claims.

(** ** The main loop *)

Section returns.

Context {A B : Type}.
Implicit Types (g : globals).

Lemma returns_elim (m : M A) g Q :
  returns m g Q → ∃ a g', m g = (Ok a, g') ∧ Q a g'.
Proof. unfold returns. destruct (m g) as [[a|e] g']; [by eauto|done]. Qed.

Lemma returns_intro (m : M A) g a g' (Q : A → globals → Prop) :
  m g = (Ok a, g') → Q a g' → returns m g Q.
Proof. unfold returns. by intros ->. Qed.

Lemma returns_bind (m : M A) (f : A → M B) g Q :
  returns m g (λ a g', returns (f a) g' Q) → returns (m ≫= f) g Q.
Proof.
  unfold returns. rewrite bind_run. by destruct (m g) as [[a|e] g'].
Qed.

Lemma returns_ret (a : A) g (Q : A → globals → Prop) :
  Q a g → returns (mret a) g Q.
Proof. done. Qed.

Lemma returns_gets (p : globals → A) g (Q : A → globals → Prop) :
  Q (p g) g → returns (gets p) g Q.
Proof. done. Qed.

Lemma returns_lift (r : Result A) a g (Q : A → globals → Prop) :
  r = Ok a → Q a g → returns (lift r) g Q.
Proof. by intros ->. Qed.

Lemma returns_mono (m : M A) g (Q Q' : A → globals → Prop) :
  returns m g Q → (∀ a g', Q a g' → Q' a g') → returns m g Q'.
Proof.
  unfold returns. destruct (m g) as [[a|e] g']; [|done]. intros H HQ. by apply HQ.
Qed.

End returns.

Lemma returns_modify (f : globals → globals) g (Q : () → globals → Prop) :
  Q () (f g) → returns (modify f) g Q.
Proof. done. Qed.

(** Runs a computation symbolically, one statement at a time. *)
Ltac run_step :=
  lazymatch goal with
  | |- returns (if ?b then _ else _) _ _ => destruct b eqn:?
  | |- returns (_ ≫= _) _ _ => apply returns_bind
  | |- returns (gets _) _ _ => apply returns_gets
  | |- returns (modify _) _ _ => apply returns_modify
  | |- returns (mret _) _ _ => apply returns_ret
  end.

Ltac exec :=
  repeat first
    [ run_step; cbn beta
    | progress unfold print, print_end, run, log, check_exist, write, input,
        skip_, unpack_default, bump_counter ].

(** Closes what is left after a symbolic run: impossible branches and
    equations between components of the final state. *)
Ltac finish :=
  try match goal with
      | H : bool_decide _ = _ |- _ => by vm_compute in H
      end;
  repeat split; cbn; rewrite ?orb_true_r, ?orb_false_r; try done.

Section main_loop.

Implicit Types (e : env) (f : direct) (g : globals).

Lemma get_min_Ok (master : nest) path : ∃ s, get_min master path = Ok s.
Proof.
  unfold get_min. destruct (split_cons path) as (c & rest & ->).
  destruct (_get_min_spec rest master c []) as (k & Hk & _).
  change ([] ++ [c]) with [c] in Hk.
  change (index (c :: rest) 0) with (Ok c). cbn [mbind Result_bind].
  rewrite Hk. by eauto.
Qed.

(** The first stage never raises. It turns first-run mode on when the
    folder is not in the master tree, and recovery on when a [.tmp] file
    is found; it changes neither the tree nor the dry-run flag. *)
Lemma enter_run e f g :
  returns (enter e f) g (λ min_path g1,
    get_min (master g) (direct_path f) = Ok min_path
    ∧ first_run g1
      = first_run g || negb (folder_chain (master g) (split (direct_path f)))
    ∧ recover g1 = recover g || tmp_exists e
    ∧ master g1 = master g
    ∧ unpack_d g1 = unpack_d g
    ∧ dry_run g1 = dry_run g).
Proof.
  destruct (get_min_Ok (master g) (direct_path f)) as (mp & Hmp).
  unfold enter. exec.
  apply (returns_lift _ mp); [done|]. exec.
  eapply returns_lift; [apply have_folder_chain|].
  cbn [master emit]. exec; finish.
Qed.

(** The second stage never raises: it stores the two listings. *)
Lemma crawl_run e f g :
  returns (crawl e f) g (λ f1 g1,
    f1 = {| lcl := with_d_tmp (lsl_lcl e) (lcl f);
            rmt := with_d_tmp (lsl_rmt e) (rmt f);
            direct_path := direct_path f |}
    ∧ first_run g1 = first_run g
    ∧ recover g1 = recover g
    ∧ master g1 = master g
    ∧ unpack_d g1 = unpack_d g
    ∧ dry_run g1 = dry_run g).
Proof. unfold crawl. exec; finish. Qed.

(** The third stage: in first-run mode each side's baseline is its own
    listing; otherwise both sides get the flattening of the folder's
    branch of the master tree, which must exist. *)
Lemma load_old_run f g :
  (first_run g = false →
   folder_chain (master g) (split (direct_path f)) = true) →
  returns (load_old f) g (λ f2 g2,
    first_run g2 = first_run g
    ∧ master g2 = master g
    ∧ dry_run g2 = dry_run g
    ∧ (if first_run g then
         recover g2 = true
         ∧ unpack_d g2 = unpack_d g
         ∧ f2 = {| lcl := with_d_old (d_tmp (lcl f)) (lcl f);
                   rmt := with_d_old (d_tmp (rmt f)) (rmt f);
                   direct_path := direct_path f |}
       else
         ∃ branch,
           get_branch (master g) (direct_path f) = Ok branch
           ∧ recover g2 = recover g
           ∧ unpack_d g2 = unpack branch (unpack_d g) EmptyString
           ∧ f2 = {| lcl := with_d_old (unpack_d g2) (lcl f);
                     rmt := with_d_old (unpack_d g2) (rmt f);
                     direct_path := direct_path f |})).
Proof.
  intros Hhave. unfold load_old. exec.
  - finish.
  - destruct (_get_branch_present (master g) (split (direct_path f)))
      as (branch & Hb); [by apply Hhave|].
    apply (returns_lift _ branch); [done|]. exec.
    finish. exists branch. finish.
Qed.

(** The classification stage as a whole never raises. *)
Lemma prepare_run e f g :
  returns (prepare e f) g (λ mf g3,
    get_min (master g) (direct_path f) = Ok mf.1
    ∧ dry_run g3 = dry_run g
    ∧ master g3 = master g
    ∧ first_run g3
      = first_run g || negb (folder_chain (master g) (split (direct_path f)))
    ∧ recover g3 = recover g || tmp_exists e || first_run g3
    ∧ (first_run g3 = true →
         unpack_d g3 = unpack_d g
         ∧ build_dif (with_d_old (lsl_lcl e) (with_d_tmp (lsl_lcl e) (lcl f)))
           = Ok (lcl mf.2)
         ∧ build_dif (with_d_old (lsl_rmt e) (with_d_tmp (lsl_rmt e) (rmt f)))
           = Ok (rmt mf.2))
    ∧ (first_run g3 = false →
         ∃ branch,
           get_branch (master g) (direct_path f) = Ok branch
           ∧ unpack_d g3 = unpack branch (unpack_d g) EmptyString
           ∧ build_dif (with_d_old (unpack_d g3) (with_d_tmp (lsl_lcl e) (lcl f)))
             = Ok (lcl mf.2)
           ∧ build_dif (with_d_old (unpack_d g3) (with_d_tmp (lsl_rmt e) (rmt f)))
             = Ok (rmt mf.2))).
Proof.
  unfold prepare. apply returns_bind.
  eapply returns_mono; [apply enter_run|]. cbn beta.
  intros min_path g1 (Hmin & Hfr1 & Hrec1 & Hm1 & Hu1 & Hd1).
  apply returns_bind. eapply returns_mono; [apply crawl_run|]. cbn beta.
  intros f1 g2 (-> & Hfr2 & Hrec2 & Hm2 & Hu2 & Hd2).
  apply returns_bind. eapply returns_mono.
  { apply load_old_run. rewrite Hfr2, Hfr1, Hm2, Hm1. cbn [direct_path].
    intros H. apply orb_false_elim in H as [_ H]. by apply negb_false_iff in H. }
  cbn beta. intros f2 g3 (Hfr3 & Hm3 & Hd3 & Hmode).
  destruct (direct_build_dif_Ok f2) as (l & r & Hl & Hr & Hb).
  apply returns_bind. eapply returns_lift; [exact Hb|]. cbn beta.
  apply returns_ret. cbn [fst snd lcl rmt].
  rewrite Hfr3, Hfr2, Hfr1, Hd3, Hd2, Hd1, Hm3, Hm2, Hm1.
  repeat (split; [done|]).
  rewrite Hfr2, Hfr1 in Hmode. rewrite Hu2, Hu1, Hm2, Hm1 in Hmode.
  cbn [direct_path lcl rmt] in Hmode.
  destruct (first_run g || negb (folder_chain (master g) (split (direct_path f)))).
  - destruct Hmode as (Hrec3 & Hu3 & ->). cbn [lcl rmt d_tmp with_d_tmp] in Hl, Hr.
    split; [by rewrite Hrec3, orb_true_r|]. split; [done|]. by intros [=].
  - destruct Hmode as (branch & Hbr & Hrec3 & Hu3 & ->). cbn [lcl rmt] in Hl, Hr.
    split; [by rewrite Hrec3, Hrec2, Hrec1, orb_false_r|].
    split; [by intros [=]|]. intros _. by exists branch.
Qed.

(** The dry pass runs [sync] with [dry_run] set, then restores the
    flag, moves the job counter to [total_jobs] and resets it. *)
Lemma dry_pass_run f g :
  dry_pass f g
  = match sync f (lcl_dif f) (rmt_dif f) (inter f)
            (set_dry_run true (emit (Stdout [col grn "Dry pass:"] newline) g)) with
    | (Ok _, g') =>
        (Ok (), set_counter 0 (set_total_jobs (counter g') (set_dry_run (dry_run g) g')))
    | (Raise x, g') => (Raise x, g')
    end.
Proof.
  unfold dry_pass, print, gets, modify, mbind, M_bind. cbn beta iota.
  by destruct (sync _ _ _ _ _) as [[[]|x] g'].
Qed.

(** In a dry run the report raises before anything is printed. *)
Lemma report_dry_run e f g :
  dry_run g = true → report_and_live e f g = (Raise TypeError, g).
Proof.
  intros Hdry. unfold report_and_live, gets, mbind, M_bind. cbn beta iota.
  by rewrite Hdry.
Qed.

(** Outside a dry run the report finds the counter it has just reset,
    and stops at "Nothing to Sync". *)
Lemma report_counter_zero e f g :
  dry_run g = false → counter g = 0%Z →
  report_and_live e f g
  = (Ok (), emit (Stdout [plain "Nothing to Sync"] newline) g).
Proof.
  intros Hdry Hc. unfold report_and_live, gets, mbind, M_bind. cbn beta iota.
  rewrite Hdry. cbn beta iota. by rewrite Hc.
Qed.

End main_loop.

Section main_loop_claims.

Implicit Types (e : env) (f : direct) (g : globals).

(** C4, as the claim states it, fails in first-sync mode. Scenario A of
    §8 (folder [cpp] not in the master tree, [a] on the local side only):
    the local classes are computed against the local listing and the
    remote classes against the remote listing, and the two baselines
    differ. *)
Lemma C4_counterexample :
  ∃ mf g,
    prepare Scenario.world_A (direct_init "cpp")
      (startup false false false false false Sinc.empty) = (Ok mf, g)
    ∧ first_run g = true
    ∧ d_old (lcl mf.2) = {[ "a" := Scenario.fs 10 100 ]}
    ∧ d_old (rmt mf.2) = ∅
    ∧ d_old (lcl mf.2) ≠ d_old (rmt mf.2).
Proof. refine (run_returns _ _ _). vm_compute. reflexivity. Qed.

(** C4, amended. The classification stage of a pass never raises. When
    the pass is not in first-run mode, the two class maps are what
    [build_dif] computes from the local and from the remote listing
    against one and the same baseline, the flattening of the folder's
    branch of the master tree; when it is in first-run mode, each side
    is classified against its own listing. *)
Theorem C4_baseline_of_each_side e f g :
  ∃ min_path f3 g3,
    prepare e f g = (Ok (min_path, f3), g3)
    ∧ (first_run g3 = false →
         ∃ branch old,
           get_branch (master g) (direct_path f) = Ok branch
           ∧ old = unpack branch (unpack_d g) EmptyString
           ∧ build_dif (with_d_old old (with_d_tmp (lsl_lcl e) (lcl f)))
             = Ok (lcl f3)
           ∧ build_dif (with_d_old old (with_d_tmp (lsl_rmt e) (rmt f)))
             = Ok (rmt f3))
    ∧ (first_run g3 = true →
         build_dif (with_d_old (lsl_lcl e) (with_d_tmp (lsl_lcl e) (lcl f)))
         = Ok (lcl f3)
         ∧ build_dif (with_d_old (lsl_rmt e) (with_d_tmp (lsl_rmt e) (rmt f)))
           = Ok (rmt f3)).
Proof.
  destruct (returns_elim _ _ _ (prepare_run e f g))
    as ([min_path f3] & g3 & Hrun & _ & _ & _ & _ & _ & Hfirst & Hnext).
  exists min_path, f3, g3. split; [done|]. split.
  - intros Hfr. destruct (Hnext Hfr) as (branch & Hb & Hu & Hl & Hr).
    exists branch, (unpack_d g3). by rewrite <- Hu.
  - intros Hfr. by destruct (Hfirst Hfr) as (_ & Hl & Hr).
Qed.

(** C10. A pass started with the dry-run flag set, whose classification
    stage and dry pass return normally, ends by raising [TypeError]: the
    report adds the integer [total_jobs] to the string ['jobs']. Nothing
    is printed or saved after the dry pass. *)
Theorem C10_dry_run_report_raises e f g min_path f3 g1 g2 :
  dry_run g = true →
  prepare e f g = (Ok (min_path, f3), g1) →
  dry_pass f3 g1 = (Ok (), g2) →
  pass e f g = (Raise TypeError, g2).
Proof.
  intros Hdry Hprep Hpass.
  pose proof (prepare_run e f g) as Hp. unfold returns in Hp.
  rewrite Hprep in Hp. destruct Hp as (_ & Hd1 & _).
  assert (dry_run g2 = true) as Hd2.
  { rewrite dry_pass_run in Hpass.
    destruct (sync _ _ _ _ _) as [[[]|x] g']; [|done].
    injection Hpass as <-. cbn. by rewrite Hd1. }
  unfold pass. rewrite bind_run, Hprep. cbn beta iota.
  rewrite bind_run, Hpass. rewrite bind_run.
  by rewrite (report_dry_run e f3 g2 Hd2).
Qed.

Lemma C10_dry_run_report_raises_witness :
  ∃ g2,
    pass Scenario.world_C (direct_init "cpp")
      (startup true false false false false Scenario.master_a)
    = (Raise TypeError, g2).
Proof.
  destruct (prepare Scenario.world_C (direct_init "cpp")
              (startup true false false false false Scenario.master_a))
    as [[[min_path f3]|x] g1] eqn:Hprep; [|by vm_compute in Hprep].
  destruct (dry_pass f3 g1) as [[[]|x] g2] eqn:Hpass.
  - exists g2.
    apply (C10_dry_run_report_raises _ _ _ min_path f3 g1 g2);
      [reflexivity|exact Hprep|exact Hpass].
  - exfalso. vm_compute in Hprep. injection Hprep as <- <- <-.
    by vm_compute in Hpass.
Defined.

(** C3, as the claim states it, fails: with no job counted, no
    auto-confirm and no recovery, [main] runs no live pass (and does not
    prompt), although "the dry pass counted zero jobs" holds. *)
Lemma C3_counterexample :
  Rsinc.after_dry_pass false false false 0 "y"
  = {| Rsinc.prompted := false; Rsinc.live_pass := false |}
  ∧ ¬ (Rsinc.live_pass (Rsinc.after_dry_pass false false false 0 "y") = true
       ↔ (0 = 0)%Z ∨ false = true ∨ Rsinc.strtobool "y" = true).
Proof. split; [done|]. intros [_ H]. by specialize (H (or_introl eq_refl)). Qed.

(** C3, amended. In a pass of [main] not invoked with the dry-run flag,
    the live pass runs exactly when either the dry pass counted at
    least one job and auto-confirm is set or the operator's answer is
    affirmative, or the dry pass counted no job and the pass is in
    recovery mode. *)
Theorem C3_live_pass_decision (auto recover : bool) (total : Z) (answer : string) :
  Rsinc.live_pass (Rsinc.after_dry_pass false auto recover total answer) = true
  ↔ (total ≠ 0%Z ∧ (auto = true ∨ Rsinc.strtobool answer = true))
    ∨ (total = 0%Z ∧ recover = true).
Proof.
  unfold Rsinc.after_dry_pass.
  destruct (Z.eqb_spec total 0) as [->|Hne];
    destruct auto, recover, (Rsinc.strtobool answer); cbn; naive_solver.
Qed.

End main_loop_claims.


(* ===================================================================== *)
(** * Part III. Further properties of the code                             *)
(* ===================================================================== *)

Import More.

(** ** The packed tree: [merge], [get_branch], [have], [get_min] *)

Section tree_more.

Implicit Types (n new tree : nest) (chain ch : list string) (c path : string).

Lemma _merge_folder_chain n chain new n' :
  _merge n chain new = Ok n' → folder_chain n' chain = true.
Proof.
  revert n n'. induction chain as [|c [|c' rest] IH]; intros n n'; [done| |].
  - intros [= <-]. simpl. by rewrite lookup_insert_eq.
  - change (_merge n (c :: c' :: rest) new)
      with (child' ← _merge (default Sinc.empty (fold n !! c)) (c' :: rest) new;
            Ok (Nest (<[c := child']> (fold n)) (file n))).
    destruct (_merge _ (c' :: rest) new) as [child'|x] eqn:Hm; [|done].
    intros [= <-].
    change (folder_chain ?t (c :: c' :: rest))
      with (match fold t !! c with
            | Some x => folder_chain x (c' :: rest)
            | None => false
            end).
    cbn [fold]. rewrite lookup_insert_eq. by apply (IH _ _ Hm).
Qed.

(** [merge] only rewrites what lies strictly below the chain it is given:
    every entry along another chain is found as before. *)
Lemma _merge_elsewhere n chain new n' ch :
  _merge n chain new = Ok n' →
  (∀ rest, rest ≠ [] → ch ≠ chain ++ rest) →
  lookup_chain n' ch = lookup_chain n ch.
Proof.
  revert n n' ch. induction chain as [|c [|c' rest] IH]; intros n n' ch; [done| |].
  - intros [= <-] Hout. destruct ch as [|c0 [|c1 r]]; [done..|].
    change (lookup_chain ?t (c0 :: c1 :: r))
      with (match fold t !! c0 with
            | Some x => lookup_chain x (c1 :: r)
            | None => None
            end).
    cbn [fold]. destruct (decide (c0 = c)) as [->|Hne].
    + by destruct (Hout (c1 :: r)).
    + by rewrite lookup_insert_ne.
  - change (_merge n (c :: c' :: rest) new)
      with (child' ← _merge (default Sinc.empty (fold n !! c)) (c' :: rest) new;
            Ok (Nest (<[c := child']> (fold n)) (file n))).
    destruct (_merge _ (c' :: rest) new) as [child'|x] eqn:Hm; [|done].
    intros [= <-] Hout. destruct ch as [|c0 [|c1 r]]; [done..|].
    change (lookup_chain ?t (c0 :: c1 :: r))
      with (match fold t !! c0 with
            | Some x => lookup_chain x (c1 :: r)
            | None => None
            end).
    cbn [fold]. destruct (decide (c0 = c)) as [->|Hne].
    + rewrite lookup_insert_eq. rewrite (IH _ _ (c1 :: r) Hm).
      * destruct (fold n !! c); [done|]. apply lookup_chain_empty.
      * intros rest' Hrest' Heq. apply (Hout rest' Hrest'). simpl. by rewrite Heq.
    + by rewrite lookup_insert_ne.
Qed.

Lemma folder_chain_take n chain k :
  folder_chain n chain = true → folder_chain n (take k chain) = true.
Proof.
  revert n k. induction chain as [|c rest IH]; intros n [|k]; simpl; try done.
  destruct (fold n !! c); [apply IH|done].
Qed.

Lemma join_app (a b : list string) :
  a ≠ [] → b ≠ [] → join (a ++ b) = join a +:+ "/" +:+ join b.
Proof.
  induction a as [|x [|y a] IH]; intros Ha Hb; [done| |].
  - destruct b; [done|]. done.
  - change (join ((x :: y :: a) ++ b)) with (x +:+ "/" +:+ join ((y :: a) ++ b)).
    rewrite IH by done. rewrite join_cons. by rewrite !append_assoc.
Qed.

(** X1. [merge] never raises. In the tree it leaves, the path is a chain
    of folders ([have] answers true) and [get_branch] at the path returns
    exactly the node that was merged. *)
Theorem X1_merge_then_have_and_get_branch tree path new :
  ∃ tree', merge tree path new = Ok tree'
    ∧ have tree' path = Ok true
    ∧ get_branch tree' path = Ok new.
Proof.
  destruct (_merge_get_branch tree (split path) new (split_nonempty path))
    as (tree' & Hm & Hg).
  exists tree'. split; [done|]. split; [|done].
  rewrite have_folder_chain. f_equal. by apply (_merge_folder_chain tree _ new).
Qed.

(** X2. [merge] changes nothing outside the subtree it replaces: an entry
    whose chain of names does not continue the chain of the path is found
    in the new tree exactly when, and as, it was found in the old one. *)
Theorem X2_merge_keeps_the_rest tree path new tree' ch :
  merge tree path new = Ok tree' →
  (∀ rest, rest ≠ [] → ch ≠ split path ++ rest) →
  lookup_chain tree' ch = lookup_chain tree ch.
Proof. apply _merge_elsewhere. Qed.

Lemma X2_merge_keeps_the_rest_witness :
  let tree := Nest {[ "cpp" := Nest ∅ {[ "a" := Scenario.fs 10 100 ]} ]}
                   {[ "top" := Scenario.fs 1 1 ]} in
  ∃ tree', merge tree "cpp/sub" Sinc.empty = Ok tree'
    ∧ lookup_chain tree' ["cpp"; "a"] = Some (Scenario.fs 10 100).
Proof.
  intros tree.
  destruct (merge tree "cpp/sub" Sinc.empty) as [tree'|x] eqn:Hm;
    [|by vm_compute in Hm].
  exists tree'. split; [reflexivity|].
  rewrite (X2_merge_keeps_the_rest tree "cpp/sub" Sinc.empty tree' ["cpp"; "a"] Hm).
  - vm_compute. reflexivity.
  - intros rest Hrest. vm_compute. destruct rest; [done|]. discriminate.
Defined.

(** X3. [get_branch] returns normally exactly on the paths for which
    [have] answers true; on every other path it raises [KeyError]. *)
Theorem X3_get_branch_needs_have tree path :
  match get_branch tree path with
  | Ok _ => have tree path = Ok true
  | Raise x => x = KeyError ∧ have tree path = Ok false
  end.
Proof.
  rewrite have_folder_chain. unfold get_branch.
  destruct (folder_chain tree (split path)) eqn:Hfc.
  - by destruct (_get_branch_present _ _ Hfc) as (b & ->).
  - by rewrite (_get_branch_absent _ _ Hfc).
Qed.

(** X4. For a path all of whose folders but the last are present in the
    tree, and only for such a path, [get_min] returns the path itself. *)
Theorem X4_get_min_is_the_path tree path :
  get_min tree path = Ok path
  ↔ folder_chain tree (removelast (split path)) = true.
Proof.
  destruct (split_cons path) as (c & rest & Hsp).
  assert (removelast (split path) = take (length rest) (split path)) as Hrl.
  { by rewrite removelast_firstn_len, Hsp. }
  unfold get_min. rewrite Hsp. rewrite Hsp in Hrl.
  destruct (_get_min_spec rest tree c []) as (k & Hk & Hle & Hpre & Hnext).
  change ([] ++ [c]) with [c] in Hk.
  change (index (c :: rest) 0) with (Ok c). cbn [mbind Result_bind].
  rewrite Hk. cbn [mbind Result_bind app]. rewrite Hrl.
  pose proof (split_no_slash path) as Hns. rewrite Hsp in Hns.
  split.
  - intros Hj0.
    assert (join (take (S k) (c :: rest)) = path) as Hj by congruence.
    assert (take (S k) (c :: rest) = c :: rest) as Ht.
    { rewrite <- (split_join (take (S k) (c :: rest))).
      - by rewrite Hj, Hsp.
      - done.
      - by apply Forall_take. }
    assert (k = length rest) as ->; [|done].
    apply (f_equal length) in Ht. rewrite length_take in Ht. simpl in Ht. lia.
  - intros Hall. destruct (decide (k = length rest)) as [->|Hne].
    + rewrite firstn_all2 by (simpl; lia). by rewrite <- Hsp, join_split.
    + exfalso. assert (k < length rest) as Hlt by lia.
      pose proof (Hnext Hlt) as Hfalse.
      pose proof (folder_chain_take _ _ (S k) Hall) as Htrue.
      rewrite take_take in Htrue.
      replace (S k `min` length rest) with (S k) in Htrue by lia.
      congruence.
Qed.

(** X5. [get_min] never raises and what it returns is a prefix of the
    path, as a string. *)
Theorem X5_get_min_is_a_prefix tree path :
  ∃ prefix suffix, get_min tree path = Ok prefix ∧ path = prefix +:+ suffix.
Proof.
  destruct (split_cons path) as (c & rest & Hsp).
  unfold get_min. rewrite Hsp.
  destruct (_get_min_spec rest tree c []) as (k & Hk & Hle & _).
  change ([] ++ [c]) with [c] in Hk.
  change (index (c :: rest) 0) with (Ok c). cbn [mbind Result_bind].
  rewrite Hk. cbn [mbind Result_bind app].
  pose proof (join_split path) as Hj. rewrite Hsp in Hj.
  rewrite <- (take_drop (S k) (c :: rest)) in Hj.
  destruct (drop (S k) (c :: rest)) as [|d ds] eqn:Hd.
  - exists (join (take (S k) (c :: rest))), EmptyString. split; [done|].
    rewrite app_nil_r in Hj. by rewrite append_nil_r.
  - exists (join (take (S k) (c :: rest))), ("/" +:+ join (d :: ds)).
    split; [done|]. by rewrite join_app in Hj.
Qed.

End tree_more.


(** ** [pack], [unpack] and [insert] *)

Section packing_more.

Implicit Types (n : nest) (d : gmap string FileState) (v : FileState).

(** X6. [pack] never raises, and [unpack] inverts it: flattening a packed
    dictionary into an empty dictionary gives the original back, and
    flattening it into a dictionary [d0] gives the original on top of
    [d0]. *)
Theorem X6_unpack_inverts_pack d (d0 : gmap string FileState) :
  ∃ n, pack d = Ok n
    ∧ unpack n ∅ EmptyString = d
    ∧ unpack n d0 EmptyString = d ∪ d0.
Proof.
  destruct (unpack_pack d d0) as (n & Hn & Hu).
  destruct (unpack_pack d ∅) as (n' & Hn' & Hu').
  rewrite Hn in Hn'. injection Hn' as <-.
  exists n. split; [done|]. split; [|done].
  by rewrite Hu', (right_id ∅ (∪)).
Qed.

(** X7. [insert] with at least one name returns normally; afterwards the
    entry is found along the chain of names it was inserted at, and the
    entry along any other chain is what it was before. *)
Theorem X7_insert_then_lookup n (names : list string) v :
  names ≠ [] →
  ∃ n', insert n names v = Ok n'
    ∧ lookup_chain n' names = Some v
    ∧ ∀ ch, ch ≠ names → lookup_chain n' ch = lookup_chain n ch.
Proof.
  intros Hne. destruct (insert_lookup names n v Hne) as (n' & Hi & _ & Hl).
  exists n'. split; [done|]. split.
  - by rewrite Hl, decide_True.
  - intros ch Hch. by rewrite Hl, decide_False.
Qed.

Lemma X7_insert_then_lookup_witness :
  ∃ n', insert Sinc.empty ["cpp"; "a"] (Scenario.fs 10 100) = Ok n'
    ∧ lookup_chain n' ["cpp"; "a"] = Some (Scenario.fs 10 100).
Proof.
  destruct (X7_insert_then_lookup Sinc.empty ["cpp"; "a"] (Scenario.fs 10 100))
    as (n' & Hi & Hl & _); [discriminate|].
  exists n'. split; [exact Hi|exact Hl].
Defined.

End packing_more.

(** ** The differ, once more *)

Section differ_more.

Implicit Types (self : data) (k : string).

Lemma class_of_same self self' :
  d_old self' = d_old self → d_tmp self' = d_tmp self →
  ∀ k, class_of self' k = class_of self k.
Proof. intros Ho Ht k. unfold class_of. by rewrite Ho, Ht. Qed.

Lemma build_dif_sets self self' :
  build_dif self = Ok self' →
  s_old self' = dom (d_old self) ∧ s_tmp self' = dom (d_tmp self).
Proof.
  unfold build_dif. destruct (for_keys _ _ _) as [x|x]; [|done].
  by intros [= <-].
Qed.

(** X8. [build_dif] is idempotent: run again on the object it returned,
    it returns that object unchanged. *)
Theorem X8_build_dif_idempotent self self' :
  build_dif self = Ok self' → build_dif self' = Ok self'.
Proof.
  intros Hb.
  destruct (build_dif_lookup self) as (s1 & Hb1 & Hp & Ho & Ht & Hs & Hlow & Hl).
  rewrite Hb in Hb1. injection Hb1 as <-.
  destruct (build_dif_lookup self') as (s2 & Hb2 & Hp2 & Ho2 & Ht2 & Hs2 & Hlow2 & Hl2).
  rewrite Hb2. f_equal.
  assert (d_dif s2 = d_dif self') as Hd.
  { apply map_eq. intros k. rewrite Hl2, (class_of_same self self' Ho Ht), Hl.
    by destruct (class_of self k). }
  destruct (build_dif_sets self self' Hb) as [Hso Hst].
  destruct (build_dif_sets self' s2 Hb2) as [Hso2 Hst2].
  rewrite Ho in Hso2. rewrite Ht in Hst2, Hlow2. rewrite Hd in Hs2.
  destruct s2, self'; cbn in *. congruence.
Qed.

Lemma X8_build_dif_idempotent_witness :
  ∃ self', build_dif Scenario.local_C = Ok self' ∧ build_dif self' = Ok self'.
Proof.
  destruct (build_dif Scenario.local_C) as [self'|x] eqn:Hb;
    [|by vm_compute in Hb].
  exists self'. split; [reflexivity|].
  exact (X8_build_dif_idempotent Scenario.local_C self' Hb).
Defined.

Lemma build_dif_own_baseline self :
  d_dif self = ∅ →
  d_old self = d_tmp self →
  ∃ self', build_dif self = Ok self'
    ∧ s_dif self' = dom (d_tmp self)
    ∧ (∀ k, d_dif self' !! k = (λ _, 0%nat) <$> d_tmp self !! k)
    ∧ ∀ k, k ∈ s_dif self' → d_dif self' !! k = Some 0%nat.
Proof.
  intros Hempty Hsame.
  destruct (build_dif_fresh self Hempty) as (self' & Hb & Hs & Hk).
  assert (∀ k, d_dif self' !! k = (λ _, 0%nat) <$> d_tmp self !! k) as Hk'.
  { intros k. rewrite Hk. unfold class_of, classify. rewrite Hsame.
    destruct (d_tmp self !! k); [|done]. simpl.
    rewrite decide_False; [done|]. intros [?|?]; [done|lia]. }
  exists self'. split; [done|]. split; [|split; [done|]].
  - rewrite Hs. apply set_eq. intros k. rewrite !elem_of_dom, Hk'.
    by rewrite fmap_is_Some.
  - intros k. rewrite Hs, elem_of_dom, Hk'.
    destruct (d_tmp self !! k); [done|]. by intros [? ?].
Qed.

(** X9. When a side's baseline is its own listing, as on a first run,
    [build_dif] gives every path of the listing class 0 (unchanged), and
    the diff set is the set of listed paths. *)
Theorem X9_own_baseline_all_unchanged self :
  d_dif self = ∅ →
  d_old self = d_tmp self →
  ∃ self', build_dif self = Ok self'
    ∧ s_dif self' = dom (d_tmp self)
    ∧ ∀ k, k ∈ s_dif self' → d_dif self' !! k = Some 0%nat.
Proof.
  intros Hempty Hsame.
  destruct (build_dif_own_baseline self Hempty Hsame) as (self' & ? & ? & _ & ?).
  by exists self'.
Qed.

Lemma X9_own_baseline_all_unchanged_witness :
  let self := with_d_old {[ "a" := Scenario.fs 10 100 ]}
                (with_d_tmp {[ "a" := Scenario.fs 10 100 ]}
                   (data_init BASE_L "cpp")) in
  ∃ self', build_dif self = Ok self' ∧ s_dif self' = {[ "a" ]}.
Proof.
  intros self.
  destruct (X9_own_baseline_all_unchanged self eq_refl eq_refl)
    as (self' & Hb & Hs & _).
  exists self'. split; [exact Hb|]. rewrite Hs. apply dom_singleton_L.
Defined.

(** X10. When both sides are classified against one baseline, a path of
    the local-only partition is new on the local side (class 3), is in
    neither the baseline nor the remote listing, and therefore is never
    a deleted path; the remote-only partition is symmetric; and the
    [inter] partition is every baseline path together with the paths
    listed on both sides. *)
Theorem X10_partitions_with_one_baseline
    (old lcl_tmp rmt_tmp : gmap string FileState) (l0 r0 l r : data) :
  d_dif l0 = ∅ → d_dif r0 = ∅ →
  build_dif (with_d_old old (with_d_tmp lcl_tmp l0)) = Ok l →
  build_dif (with_d_old old (with_d_tmp rmt_tmp r0)) = Ok r →
  let f := {| lcl := l; rmt := r; direct_path := EmptyString |} in
  (∀ k, k ∈ lcl_dif f ↔ k ∈ dom lcl_tmp ∧ (k ∉ dom old) ∧ (k ∉ dom rmt_tmp))
  ∧ (∀ k, k ∈ lcl_dif f → d_dif l !! k = Some 3%nat)
  ∧ (∀ k, k ∈ rmt_dif f ↔ k ∈ dom rmt_tmp ∧ (k ∉ dom old) ∧ (k ∉ dom lcl_tmp))
  ∧ (∀ k, k ∈ rmt_dif f → d_dif r !! k = Some 3%nat)
  ∧ inter f = dom old ∪ (dom lcl_tmp ∩ dom rmt_tmp).
Proof.
  intros Hl0 Hr0 Hl Hr f.
  destruct (build_dif_fresh (with_d_old old (with_d_tmp lcl_tmp l0)) Hl0)
    as (l' & Hl' & Hsl & Hkl).
  destruct (build_dif_fresh (with_d_old old (with_d_tmp rmt_tmp r0)) Hr0)
    as (r' & Hr' & Hsr & Hkr).
  rewrite Hl in Hl'. injection Hl' as <-. rewrite Hr in Hr'. injection Hr' as <-.
  unfold class_of, classify in Hkl, Hkr. cbn [d_old d_tmp with_d_old with_d_tmp] in Hkl, Hkr.
  assert (∀ k, k ∈ s_dif l ↔ k ∈ dom old ∨ k ∈ dom lcl_tmp) as Hinl.
  { intros k. rewrite Hsl, !elem_of_dom, Hkl. unfold is_Some.
    destruct (old !! k), (lcl_tmp !! k); simpl; try case_decide; naive_solver. }
  assert (∀ k, k ∈ s_dif r ↔ k ∈ dom old ∨ k ∈ dom rmt_tmp) as Hinr.
  { intros k. rewrite Hsr, !elem_of_dom, Hkr. unfold is_Some.
    destruct (old !! k), (rmt_tmp !! k); simpl; try case_decide; naive_solver. }
  unfold lcl_dif, rmt_dif, inter. subst f. cbn [lcl rmt].
  split; [|split; [|split; [|split]]].
  - intros k. rewrite elem_of_difference, Hinl, Hinr. naive_solver.
  - intros k. rewrite elem_of_difference, Hinl, Hinr, Hkl, !elem_of_dom.
    unfold is_Some. destruct (old !! k), (lcl_tmp !! k); naive_solver.
  - intros k. rewrite elem_of_difference, Hinl, Hinr. naive_solver.
  - intros k. rewrite elem_of_difference, Hinl, Hinr, Hkr, !elem_of_dom.
    unfold is_Some. destruct (old !! k), (rmt_tmp !! k); naive_solver.
  - apply set_eq. intros k.
    rewrite elem_of_intersection, Hinl, Hinr, elem_of_union, elem_of_intersection.
    naive_solver.
Qed.

Lemma X10_partitions_with_one_baseline_witness :
  ∃ l r,
    build_dif (with_d_old ∅ (with_d_tmp {[ "a" := Scenario.fs 1 1 ]}
                               (data_init BASE_L "cpp"))) = Ok l
    ∧ build_dif (with_d_old ∅ (with_d_tmp ∅ (data_init BASE_R "cpp"))) = Ok r
    ∧ d_dif l !! "a" = Some 3.
Proof.
  destruct (build_dif (with_d_old ∅ (with_d_tmp {[ "a" := Scenario.fs 1 1 ]}
                                      (data_init BASE_L "cpp"))))
    as [l|x] eqn:Hl; [|by vm_compute in Hl].
  destruct (build_dif (with_d_old ∅ (with_d_tmp ∅ (data_init BASE_R "cpp"))))
    as [r|x] eqn:Hr; [|by vm_compute in Hr].
  exists l, r. split; [reflexivity|]. split; [reflexivity|].
  destruct (X10_partitions_with_one_baseline ∅ {[ "a" := Scenario.fs 1 1 ]} ∅
              (data_init BASE_L "cpp") (data_init BASE_R "cpp") l r
              eq_refl eq_refl Hl Hr) as (Hin & Hcl & _).
  apply Hcl, Hin. rewrite dom_singleton_L, !dom_empty_L. set_solver.
Defined.

End differ_more.


(** ** The job functions and [sync], once more *)

Section jobs_more.

Implicit Types (f : direct) (key source dest : string) (g : globals).

(** X11. Each function of the table returns normally and adds to the job
    counter the number of jobs of its action: none for [null], one for a
    push, a pull or a delete, and two for a conflict, or none when
    conflicts are skipped. *)
Theorem X11_job_counter (a : Action) source dest g :
  (perform a source dest g).1 = Ok ()
  ∧ counter (perform a source dest g).2 = (counter g + jobs (skip g) a)%Z.
Proof.
  destruct a; unfold perform, jobs, conflict;
    unfold null, cpyL, cpyR, delL, delR,
      bump_counter, print, run, skip_, gets, modify, mbind, mret, M_bind, M_ret;
    cbn beta iota;
    destruct (skip g) eqn:Hs; destruct (dry_run g) eqn:Hd;
    repeat (cbn; rewrite ?Hd); split; (reflexivity || lia).
Qed.

End jobs_more.

Lemma dry_bind {A B} (m : M A) (k : A → M B) :
  dry_prints_only m → (∀ a, dry_prints_only (k a)) → dry_prints_only (m ≫= k).
Proof.
  intros Hm Hk g Hdry. rewrite bind_run.
  destruct (Hm g Hdry) as (Hd & evs & Ht & Hevs).
  destruct (m g) as [[a|x] g1]; cbn in *; [|by eauto].
  destruct (Hk a g1 Hd) as (Hd' & evs' & Ht' & Hevs').
  split; [done|]. exists (evs ++ evs').
  rewrite Ht', Ht, app_assoc. split; [done|]. by apply Forall_app.
Qed.

Lemma dry_ret {A} (a : A) : dry_prints_only (mret a).
Proof. intros g Hdry. split; [done|]. exists []. by rewrite app_nil_r. Qed.

Lemma dry_lift {A} (r : Result A) : dry_prints_only (lift r).
Proof. intros g Hdry. split; [done|]. exists []. by rewrite app_nil_r. Qed.

Lemma dry_gets {A B} (p : globals → A) (k : A → M B) :
  (∀ a, dry_prints_only (k a)) → dry_prints_only (gets p ≫= k).
Proof. intros Hk. apply dry_bind; [|done]. intros g Hdry. split; [done|]. exists []. by rewrite app_nil_r. Qed.

(** Reading [dry_run] during a dry run gives [True]. *)
Lemma dry_gets_dry_run {B} (k : bool → M B) :
  dry_prints_only (k true) → dry_prints_only (gets dry_run ≫= k).
Proof. intros Hk g Hdry. rewrite bind_run. cbn. rewrite Hdry. by apply Hk. Qed.

Lemma dry_print args : dry_prints_only (print args).
Proof.
  intros g Hdry. split; [done|]. exists [Stdout args newline].
  split; [done|]. by repeat constructor.
Qed.

Lemma dry_bump : dry_prints_only bump_counter.
Proof. intros g Hdry. split; [done|]. exists []. by rewrite app_nil_r. Qed.

Lemma dry_for_each {A} (l : list A) (body : A → M unit) :
  (∀ a, dry_prints_only (body a)) → dry_prints_only (for_each l body).
Proof.
  intros Hb. induction l as [|a l IH]; [apply dry_ret|].
  apply dry_bind; [apply Hb|done].
Qed.

#[local] Hint Resolve dry_ret dry_lift dry_print dry_bump dry_for_each : frame.

(** Walks through a computation that runs while [dry_run] is set. *)
Ltac dry :=
  repeat first
    [ progress intros
    | solve [eauto with frame]
    | match goal with
      | |- dry_prints_only (gets dry_run ≫= _) => apply dry_gets_dry_run; cbn beta iota
      | |- dry_prints_only (gets _ ≫= _) => apply dry_gets
      | |- dry_prints_only (if ?b then _ else _) => destruct b
      | |- dry_prints_only (for_each _ _) => apply dry_for_each
      | |- dry_prints_only (_ ≫= _) => apply dry_bind
      end ].

Lemma dry_cpyR source dest : dry_prints_only (cpyR source dest).
Proof. unfold cpyR. dry. Qed.

Lemma dry_cpyL dest source : dry_prints_only (cpyL dest source).
Proof. unfold cpyL. dry. Qed.

Lemma dry_delL l r : dry_prints_only (delL l r).
Proof. unfold delL. dry. Qed.

Lemma dry_delR l r : dry_prints_only (delR l r).
Proof. unfold delR. dry. Qed.

Lemma dry_null l r : dry_prints_only (null l r).
Proof. unfold null, skip_. dry. Qed.

#[local] Hint Resolve dry_cpyR dry_cpyL dry_delL dry_delR dry_null : frame.

Lemma dry_conflict source dest : dry_prints_only (conflict source dest).
Proof. unfold conflict, skip_. dry. Qed.

#[local] Hint Resolve dry_conflict : frame.

Lemma dry_perform (a : Action) source dest :
  dry_prints_only (perform a source dest).
Proof. destruct a; cbn; eauto with frame. Qed.

Lemma LOGIC_cases (i j : nat) row (fn : string → string → M unit) :
  LOGIC !! i = Some row → row !! j = Some fn → ∃ a, fn = perform a.
Proof.
  unfold LOGIC. intros Hrow Hfn.
  destruct i as [|[|[|[|i]]]]; simplify_eq/=;
    destruct j as [|[|[|[|j]]]]; simplify_eq/=;
    first [ by exists NoOp | by exists Pull | by exists Push
          | by exists DeleteLocal | by exists DeleteRemote | by exists Conflict ].
Qed.

Lemma dry_sync_logic_body f key : dry_prints_only (sync_logic_body f key).
Proof.
  unfold sync_logic_body. intros g Hdry. rewrite !bind_run.
  unfold lift, getitem, index.
  destruct (d_dif (lcl f) !! key) as [i|]; [|by split; [|exists []; rewrite app_nil_r]].
  destruct (LOGIC !! i) as [row|] eqn:Hrow;
    [|by split; [|exists []; rewrite app_nil_r]].
  rewrite !bind_run.
  destruct (d_dif (rmt f) !! key) as [j|]; [|by split; [|exists []; rewrite app_nil_r]].
  rewrite !bind_run.
  destruct (row !! j) as [fn|] eqn:Hfn; [|by split; [|exists []; rewrite app_nil_r]].
  destruct (LOGIC_cases i j row fn Hrow Hfn) as (a & ->).
  by apply dry_perform.
Qed.

Lemma dry_sync f l r i : dry_prints_only (sync f l r i).
Proof.
  unfold sync, sync_lcl_body, sync_rmt_body, sync_recover_body, skip_.
  pose proof (dry_sync_logic_body f). dry.
Qed.

Lemma executed_app t1 t2 : executed (t1 ++ t2) = executed t1 ++ executed t2.
Proof. unfold executed. apply omap_app. Qed.

Lemma executed_stdout evs : Forall is_stdout evs → executed evs = [].
Proof.
  induction 1 as [|e evs He _ IH]; [done|].
  by destruct e.
Qed.

Section jobs_more2.

Implicit Types (f : direct) (key source dest : string) (g : globals).

(** X12. While [dry_run] is set, [sync] does nothing but print: whatever
    the partitions and the recovery flag, it leaves [dry_run] set, every
    event it adds is a line on the terminal, and no command is run. *)
Theorem X12_dry_sync_only_prints f (l r i : gset string) g :
  dry_run g = true →
  dry_run (sync f l r i g).2 = true
  ∧ (∃ evs, trace (sync f l r i g).2 = trace g ++ evs ∧ Forall is_stdout evs)
  ∧ executed (trace (sync f l r i g).2) = executed (trace g).
Proof.
  intros Hdry. destruct (dry_sync f l r i g Hdry) as (Hd & evs & Ht & Hevs).
  split; [done|]. split; [by eauto|].
  by rewrite Ht, executed_app, (executed_stdout evs Hevs), app_nil_r.
Qed.

Lemma X12_dry_sync_only_prints_witness :
  let g := startup true false true false false Sinc.empty in
  let f := direct_init "cpp" in
  executed (trace (sync f ∅ ∅ ∅ g).2) = executed (trace g).
Proof.
  intros g f. apply (X12_dry_sync_only_prints f ∅ ∅ ∅ g). reflexivity.
Defined.

End jobs_more2.


Lemma perform_Ok (a : Action) source dest g :
  (perform a source dest g).1 = Ok ().
Proof.
  destruct a; unfold perform, conflict;
    unfold null, cpyL, cpyR, delL, delR,
      bump_counter, print, run, skip_, gets, modify, mbind, mret, M_bind, M_ret;
    cbn beta iota;
    destruct (skip g) eqn:Hs; destruct (dry_run g) eqn:Hd;
    repeat (cbn; rewrite ?Hd); reflexivity.
Qed.

Lemma only_KeyError_bind {A B} (m : M A) (k : A → M B) :
  raises_only_KeyError m → (∀ a, raises_only_KeyError (k a)) →
  raises_only_KeyError (m ≫= k).
Proof.
  intros Hm Hk g. rewrite bind_run. specialize (Hm g).
  destruct (m g) as [[a|x] g1]; cbn in *; [apply Hk|done].
Qed.

Lemma only_KeyError_getitem {V} (d : gmap string V) key :
  raises_only_KeyError (lift (getitem d key)).
Proof. intros g. unfold lift, getitem. cbn. by destruct (d !! key). Qed.

Lemma only_KeyError_perform (a : Action) source dest :
  raises_only_KeyError (perform a source dest).
Proof. intros g. by rewrite perform_Ok. Qed.

Lemma only_KeyError_print args : raises_only_KeyError (print args).
Proof. done. Qed.

Lemma only_KeyError_ret {A} (a : A) : raises_only_KeyError (mret a).
Proof. done. Qed.

Lemma only_KeyError_for_each {A} (l : list A) (body : A → M unit) :
  (∀ a, raises_only_KeyError (body a)) → raises_only_KeyError (for_each l body).
Proof.
  intros Hb. induction l as [|a l IH]; [done|].
  apply only_KeyError_bind; [apply Hb|done].
Qed.

Lemma only_KeyError_sync_lcl_body f key :
  raises_only_KeyError (sync_lcl_body f key).
Proof.
  unfold sync_lcl_body, skip_. apply only_KeyError_bind.
  { apply only_KeyError_getitem. }
  intros c. destruct (bool_decide _); [|done].
  destruct (_ && _); [done|]. apply (only_KeyError_perform Push).
Qed.

Lemma only_KeyError_sync_rmt_body f key :
  raises_only_KeyError (sync_rmt_body f key).
Proof.
  unfold sync_rmt_body, skip_. apply only_KeyError_bind.
  { apply only_KeyError_getitem. }
  intros c. destruct (bool_decide _); [|done].
  destruct (_ && _); [done|]. apply (only_KeyError_perform Pull).
Qed.

Lemma only_KeyError_sync_recover_body f key :
  raises_only_KeyError (sync_recover_body f key).
Proof.
  unfold sync_recover_body, skip_. apply only_KeyError_bind.
  { apply only_KeyError_getitem. }
  intros l. apply only_KeyError_bind.
  { apply only_KeyError_getitem. }
  intros r. repeat (destruct (bool_decide _); try done).
  - apply (only_KeyError_perform Push).
  - apply (only_KeyError_perform Pull).
Qed.

(** A loop whose body raises [KeyError] at one of its items, and can
    raise nothing else at the others, raises [KeyError]. *)
Lemma for_each_raises {A} (l : list A) (body : A → M unit) (a : A) g :
  (∀ b, raises_only_KeyError (body b)) →
  (∀ g, (body a g).1 = Raise KeyError) →
  a ∈ l →
  (for_each l body g).1 = Raise KeyError.
Proof.
  intros Hall Ha Hin. revert g. induction l as [|b l IH]; intros g.
  - by apply elem_of_nil in Hin.
  - cbn [for_each]. rewrite bind_run.
    apply elem_of_cons in Hin as [<-|Hin].
    + specialize (Ha g). by destruct (body a g) as [[[]|x] g1]; simplify_eq/=.
    + specialize (Hall b g). destruct (body b g) as [[[]|x] g1]; cbn in *.
      * by apply IH.
      * by subst x.
Qed.

Lemma elem_of_sorted (X : gset string) key : key ∈ sorted X ↔ key ∈ X.
Proof.
  unfold sorted. rewrite merge_sort_Permutation. apply elem_of_elements.
Qed.

Section sync_more.

Implicit Types (f : direct) (key : string) (g : globals).

(** X13. The case guard of the local-only loop. If the remote listing
    holds a path that differs from a local-only path in the case of its
    letters only, the loop body for that path pushes nothing: it returns
    normally, counts no job and runs no command. *)
Theorem X13_case_mismatch_blocks_the_push (r0 l r : data) key k' (c : nat) g :
  build_dif r0 = Ok r →
  k' ∈ dom (d_tmp r0) →
  lower k' = lower key →
  d_dif l !! key = Some c →
  let f := {| lcl := l; rmt := r; direct_path := EmptyString |} in
  (sync_lcl_body f key g).1 = Ok ()
  ∧ counter (sync_lcl_body f key g).2 = counter g
  ∧ executed (trace (sync_lcl_body f key g).2) = executed (trace g).
Proof.
  intros Hr Hk' Hlow Hc f.
  destruct (build_dif_lookup r0) as (r' & Hr' & _ & _ & _ & _ & Hs & _).
  rewrite Hr in Hr'. injection Hr' as <-.
  assert (lower key ∈ s_low r) as Hin.
  { rewrite Hs, <- Hlow. apply elem_of_map. by exists k'. }
  unfold sync_lcl_body, getitem, skip_, print. subst f. cbn [lcl rmt].
  rewrite Hc. unfold lift, mbind, mret, M_bind, M_ret, modify. cbn beta iota.
  rewrite (bool_decide_eq_true_2 _ Hin). cbn [CASE_INSENSATIVE andb].
  destruct (bool_decide (c ≠ 2)); cbn; rewrite ?executed_app; cbn;
    by rewrite ?app_nil_r.
Qed.

Lemma X13_case_mismatch_blocks_the_push_witness :
  let r0 := with_d_tmp {[ "foo.txt" := Scenario.fs 1 1 ]} (data_init BASE_R "cpp") in
  let l0 := with_d_tmp {[ "Foo.txt" := Scenario.fs 2 2 ]} (data_init BASE_L "cpp") in
  ∃ l r, build_dif l0 = Ok l ∧ build_dif r0 = Ok r
    ∧ counter (sync_lcl_body {| lcl := l; rmt := r; direct_path := EmptyString |}
                 "Foo.txt" (startup false false false false false Sinc.empty)).2
      = 0%Z.
Proof.
  intros r0 l0.
  destruct (build_dif l0) as [l|x] eqn:Hl; [|by vm_compute in Hl].
  destruct (build_dif r0) as [r|x] eqn:Hr; [|by vm_compute in Hr].
  exists l, r. split; [reflexivity|]. split; [reflexivity|].
  assert (d_dif l !! "Foo.txt" = Some 3%nat) as Hc.
  { vm_compute in Hl. injection Hl as <-. vm_compute. reflexivity. }
  apply (X13_case_mismatch_blocks_the_push r0 l r "Foo.txt" "foo.txt" 3
           (startup false false false false false Sinc.empty) Hr).
  - apply elem_of_dom. exists (Scenario.fs 1 1). vm_compute. reflexivity.
  - vm_compute. reflexivity.
  - exact Hc.
Defined.

(** X14. While the recovery flag is false, [sync] does not look at its
    [inter] argument: it does what it would do with an empty [inter]. *)
Theorem X14_sync_ignores_inter_without_recover f (l r i : gset string) g :
  recover g = false → sync f l r i g = sync f l r ∅ g.
Proof. apply sync_without_recover. Qed.

Lemma X14_sync_ignores_inter_without_recover_witness :
  let g := startup true false false false false Sinc.empty in
  sync (direct_init "cpp") ∅ ∅ {[ "a" ]} g = sync (direct_init "cpp") ∅ ∅ ∅ g.
Proof.
  intros g.
  apply (X14_sync_ignores_inter_without_recover (direct_init "cpp") ∅ ∅ {[ "a" ]} g).
  reflexivity.
Defined.

(** X15. While the recovery flag is true, [sync] raises [KeyError] as
    soon as a path of [inter] is missing from the local or from the remote
    listing, as a path deleted on one side is. *)
Theorem X15_recover_raises_on_a_missing_listing f (l r i : gset string) key g :
  recover g = true →
  key ∈ i →
  d_tmp (lcl f) !! key = None ∨ d_tmp (rmt f) !! key = None →
  (sync f l r i g).1 = Raise KeyError.
Proof.
  intros Hrec Hin Hmiss. unfold sync. rewrite bind_run.
  pose proof (only_KeyError_for_each (sorted l) _ (only_KeyError_sync_lcl_body f) g) as H1.
  pose proof (keeps_for_each flag_of (sorted l) _ (keeps_sync_lcl_body f) g) as K1.
  destruct (for_each (sorted l) (sync_lcl_body f) g) as [[[]|x] g1]; cbn in *;
    [|by subst x].
  rewrite bind_run.
  pose proof (only_KeyError_for_each (sorted r) _ (only_KeyError_sync_rmt_body f) g1) as H2.
  pose proof (keeps_for_each flag_of (sorted r) _ (keeps_sync_rmt_body f) g1) as K2.
  destruct (for_each (sorted r) (sync_rmt_body f) g1) as [[[]|x] g2]; cbn in *;
    [|by subst x].
  assert (recover g2 = true) as Hrec2.
  { rewrite <- Hrec. apply flag_of_recover. by rewrite K2. }
  rewrite bind_run. unfold gets at 1. cbn beta iota. rewrite Hrec2.
  rewrite bind_run. unfold print at 1, modify at 1. cbn beta iota.
  rewrite bind_run.
  rewrite (surjective_pairing (for_each (sorted i) (sync_recover_body f) _)).
  rewrite (for_each_raises (sorted i) (sync_recover_body f) key); [done| | |].
  - apply only_KeyError_sync_recover_body.
  - intros g'. unfold sync_recover_body, getitem, lift. rewrite bind_run.
    destruct Hmiss as [-> | Hr]; [done|].
    destruct (d_tmp (lcl f) !! key); [|done]. cbn beta iota.
    rewrite bind_run. by rewrite Hr.
  - by apply elem_of_sorted.
Qed.

Lemma X15_recover_raises_on_a_missing_listing_witness :
  let f := direct_init "cpp" in
  let g := startup false false true false false Sinc.empty in
  (sync f ∅ ∅ {[ "a" ]} g).1 = Raise KeyError.
Proof.
  intros f g.
  apply (X15_recover_raises_on_a_missing_listing f ∅ ∅ {[ "a" ]} "a" g).
  - reflexivity.
  - set_solver.
  - left. vm_compute. reflexivity.
Defined.

(** X16. The loop over [inter] dispatches through the table: for a path
    whose local and remote classes are [cl] and [cr], its body does what
    the function of the action [Table cl cr] of §4.4 does on the two full
    paths. *)
Theorem X16_logic_loop_dispatches_the_table f key (cl cr : ChangeClass) g :
  d_dif (lcl f) !! key = Some (code cl) →
  d_dif (rmt f) !! key = Some (code cr) →
  sync_logic_body f key g
  = perform (Table cl cr)
      (data_path (lcl f) +:+ key) (data_path (rmt f) +:+ key) g.
Proof.
  intros Hl Hr. unfold sync_logic_body, getitem. rewrite Hl, Hr.
  by destruct cl, cr.
Qed.

Lemma X16_logic_loop_dispatches_the_table_witness :
  let f := {| lcl := {| data_path := "L/"; d_old := ∅; d_tmp := ∅;
                        d_dif := {[ "a" := 0%nat ]}; s_old := ∅; s_tmp := ∅;
                        s_dif := ∅; s_low := ∅ |};
              rmt := {| data_path := "R/"; d_old := ∅; d_tmp := ∅;
                        d_dif := {[ "a" := 2%nat ]}; s_old := ∅; s_tmp := ∅;
                        s_dif := ∅; s_low := ∅ |};
              direct_path := EmptyString |} in
  let g := startup true false true false false Sinc.empty in
  sync_logic_body f "a" g = delL "L/a" "R/a" g.
Proof.
  intros f g.
  apply (X16_logic_loop_dispatches_the_table f "a" Unchanged Deleted g).
  - vm_compute. reflexivity.
  - vm_compute. reflexivity.
Defined.

End sync_more.


(** ** The main loop, once more *)

Lemma executed_no_command evs : Forall no_command evs → executed evs = [].
Proof. induction 1 as [|e evs He _ IH]; [done|]. by destruct e. Qed.

Lemma executed_emit ev g :
  executed (trace (emit ev g)) = executed (trace g) ++ executed [ev].
Proof. unfold emit. cbn [trace]. apply executed_app. Qed.

Lemma enter_no_command e f : emits_only no_command (enter e f).
Proof. unfold enter, print, check_exist, log, print, skip_. frame; done. Qed.

Lemma crawl_no_command e f : emits_only no_command (crawl e f).
Proof. unfold crawl, print_end, print, write, log, print, skip_. frame; done. Qed.

Lemma load_old_no_command f : emits_only no_command (load_old f).
Proof. unfold load_old, unpack_default, print. frame; done. Qed.

Lemma prepare_no_command e f : emits_only no_command (prepare e f).
Proof.
  unfold prepare.
  pose proof (enter_no_command e f). pose proof (crawl_no_command e).
  pose proof load_old_no_command. frame.
Qed.

Lemma build_dif_data_path self self' :
  build_dif self = Ok self' → data_path self' = data_path self.
Proof.
  intros Hb. destruct (build_dif_lookup self) as (s1 & Hb1 & Hp & _).
  rewrite Hb in Hb1. by injection Hb1 as <-.
Qed.

Lemma prepare_direct_path e f g mf g' :
  prepare e f g = (Ok mf, g') → direct_path mf.2 = direct_path f.
Proof.
  unfold prepare. rewrite bind_run.
  destruct (enter e f g) as [[mp|x] g1]; [|done]. rewrite bind_run.
  pose proof (crawl_run e f g1) as Hc. unfold returns in Hc.
  destruct (crawl e f g1) as [[f1|x] g2]; [|done]. destruct Hc as (-> & _).
  rewrite bind_run.
  assert (∀ g0 f2 g3, load_old {| lcl := with_d_tmp (lsl_lcl e) (lcl f);
                                 rmt := with_d_tmp (lsl_rmt e) (rmt f);
                                 direct_path := direct_path f |} g0 = (Ok f2, g3) →
                      direct_path f2 = direct_path f) as Hload.
  { intros g0 f2 g3. unfold load_old, unpack_default, print, gets, modify, lift,
      mbind, mret, M_bind, M_ret. cbn beta iota.
    destruct (first_run g0); cbn; [by intros [= <- _]|].
    destruct (_get_branch _ _); [by intros [= <- _]|done]. }
  destruct (load_old _ g2) as [[f2|x] g3] eqn:Hl; [|done].
  apply Hload in Hl. rewrite bind_run. unfold lift, direct_build_dif.
  destruct (build_dif (lcl f2)) as [l|x]; [|done]. cbn.
  destruct (build_dif (rmt f2)) as [r|x]; [|done]. cbn.
  by intros [= <- _].
Qed.

(** [save] never raises; outside a dry run the one command it runs is
    the removal of the folder's [.tmp] file. *)
Lemma save_run e f min_path g :
  dry_run g = false →
  ∃ g', save e f min_path g = (Ok (), g')
    ∧ executed (trace g') = executed (trace g) ++ [["rm"; tmp_name f]].
Proof.
  intros Hdry.
  destruct (pack_lookup (lsl_min e)) as (packed & Hp & _).
  destruct (_merge_get_branch (master g) (split min_path) packed
              (split_nonempty min_path)) as (m' & Hm & _).
  unfold save, print_end, write, log, print, run, skip_, gets, modify, lift,
    mbind, mret, M_bind, M_ret. cbn beta iota.
  rewrite Hp. cbn. unfold merge. rewrite Hm. cbn. rewrite Hdry. cbn.
  destruct (verbosity g); cbn; rewrite ?Hdry; cbn;
    (eexists; split; [reflexivity|]);
    rewrite !executed_emit; cbn [set_master trace];
    rewrite !executed_emit; cbn; by rewrite ?app_nil_r.
Qed.

Section pass_more.

Implicit Types (e : env) (f : direct) (g : globals).

(** X17. The dry pass. When it returns normally it has restored the
    dry-run flag, reset the job counter to zero, left the other flags and
    the master tree alone, and run no command; when [sync] raises in it,
    no command has been run either, but [dry_run] is left set. *)
Theorem X17_dry_pass_effects f g :
  match dry_pass f g with
  | (Ok _, g') =>
      dry_run g' = dry_run g ∧ counter g' = 0%Z
      ∧ recover g' = recover g ∧ first_run g' = first_run g
      ∧ master g' = master g
      ∧ executed (trace g') = executed (trace g)
  | (Raise _, g') =>
      dry_run g' = true ∧ executed (trace g') = executed (trace g)
  end.
Proof.
  rewrite dry_pass_run.
  set (g0 := set_dry_run true (emit (Stdout [col grn "Dry pass:"] newline) g)).
  assert (dry_run g0 = true) as Hd0 by done.
  destruct (dry_sync f (lcl_dif f) (rmt_dif f) (inter f) g0 Hd0)
    as (Hd & evs & Ht & Hevs).
  pose proof (keeps_sync f (lcl_dif f) (rmt_dif f) (inter f) g0) as Hk.
  destruct (sync f (lcl_dif f) (rmt_dif f) (inter f) g0) as [[[]|x] g1];
    cbn in *.
  - unfold flag_of in Hk. injection Hk as _ _ Hrec _ _ Hfr _ Hm _.
    repeat (split; [done|]).
    rewrite Ht, executed_app, (executed_stdout evs Hevs), app_nil_r.
    unfold executed. cbn. by rewrite omap_app, app_nil_r.
  - split; [done|].
    rewrite Ht, executed_app, (executed_stdout evs Hevs), app_nil_r.
    unfold executed. cbn. by rewrite omap_app, app_nil_r.
Qed.

(** X18. A pass of [sinc.py] started without the dry-run flag never
    transfers or deletes a file. If it returns normally, the only command
    it has run is the removal of the folder's [.tmp] file; if it raises,
    it has run no command at all. *)
Theorem X18_pass_runs_no_transfer e f g :
  dry_run g = false →
  match pass e f g with
  | (Ok _, g') => executed (trace g') = executed (trace g) ++ [["rm"; tmp_name f]]
  | (Raise _, g') => executed (trace g') = executed (trace g)
  end.
Proof.
  intros Hdry. unfold pass. rewrite bind_run.
  pose proof (prepare_run e f g) as Hp. unfold returns in Hp.
  destruct (prepare_no_command e f g) as (evs & Ht & Hevs).
  pose proof (prepare_direct_path e f g) as Hpath.
  destruct (prepare e f g) as [[[min_path f3]|x] g1]; [|done].
  destruct Hp as (_ & Hd1 & _). cbn in Ht. rewrite Hdry in Hd1.
  specialize (Hpath _ _ eq_refl). cbn in Hpath.
  assert (executed (trace g1) = executed (trace g)) as He1.
  { by rewrite Ht, executed_app, (executed_no_command evs Hevs), app_nil_r. }
  cbn beta iota. rewrite bind_run.
  pose proof (dry_pass_run f3 g1) as Hrun.
  set (g0 := set_dry_run true (emit (Stdout [col grn "Dry pass:"] newline) g1)) in Hrun.
  assert (dry_run g0 = true) as Hd0 by done.
  destruct (dry_sync f3 (lcl_dif f3) (rmt_dif f3) (inter f3) g0 Hd0)
    as (Hd & evs2 & Ht2 & Hevs2).
  assert (executed (trace g0) = executed (trace g1)) as He0.
  { unfold g0, executed. cbn. by rewrite omap_app, app_nil_r. }
  assert (∀ g2, trace g2 = trace g0 ++ evs2 →
                executed (trace g2) = executed (trace g)) as He2.
  { intros g2 ->.
    by rewrite executed_app, (executed_stdout evs2 Hevs2), app_nil_r, He0. }
  destruct (sync f3 (lcl_dif f3) (rmt_dif f3) (inter f3) g0) as [[[]|x] g2];
    rewrite Hrun; cbn in Ht2; apply He2 in Ht2.
  - rewrite bind_run.
    set (g3 := set_counter 0 _).
    rewrite (report_counter_zero e f3 g3) by done.
    set (g4 := emit _ g3).
    destruct (save_run e f3 min_path g4) as (g5 & -> & He5); [done|].
    rewrite He5. unfold tmp_name. rewrite Hpath. f_equal.
    unfold g4. rewrite executed_emit. cbn. by rewrite app_nil_r.
  - done.
Qed.

Lemma X18_pass_runs_no_transfer_witness :
  let g := startup false false false true false Scenario.master_a in
  executed (trace (pass Scenario.world_C (direct_init "cpp") g).2)
  = [["rm"; "cpp.tmp"]].
Proof.
  intros g.
  pose proof (X18_pass_runs_no_transfer Scenario.world_C (direct_init "cpp") g
                eq_refl) as H.
  destruct (pass Scenario.world_C (direct_init "cpp") g) as [[[]|x] g'] eqn:E.
  - exact H.
  - exfalso. by vm_compute in E.
Defined.

End pass_more.


Lemma nc_bind {A B} proj (m : M A) (k : A → M B) :
  never_clears proj m → (∀ a, never_clears proj (k a)) →
  never_clears proj (m ≫= k).
Proof.
  intros Hm Hk g Hg. rewrite bind_run. specialize (Hm g Hg).
  destruct (m g) as [[a|x] g1]; cbn in *; [by apply Hk|done].
Qed.

Lemma nc_ret {A} proj (a : A) : never_clears proj (mret a).
Proof. by intros g Hg. Qed.

Lemma nc_lift {A} proj (r : Result A) : never_clears proj (lift r).
Proof. by intros g Hg. Qed.

Lemma nc_gets {A} proj (p : globals → A) : never_clears proj (gets p).
Proof. by intros g Hg. Qed.

Lemma nc_modify proj (f : globals → globals) :
  (∀ g, proj g = true → proj (f g) = true) → never_clears proj (modify f).
Proof. intros Hf g Hg. by apply Hf. Qed.

Lemma nc_for_each {A} proj (l : list A) (body : A → M unit) :
  (∀ a, never_clears proj (body a)) → never_clears proj (for_each l body).
Proof.
  intros Hb. induction l as [|a l IH]; [by intros g Hg|].
  apply nc_bind; [apply Hb|done].
Qed.

Lemma flag_of_first_run g g' : flag_of g' = flag_of g → first_run g' = first_run g.
Proof. unfold flag_of. by intros [= _ _ _ _ _ ? _ _ _]. Qed.

Lemma nc_sync_first_run f l r i : never_clears first_run (sync f l r i).
Proof.
  intros g Hg. rewrite <- Hg. apply flag_of_first_run, keeps_sync.
Qed.

Lemma nc_sync_recover f l r i : never_clears recover (sync f l r i).
Proof.
  intros g Hg. rewrite <- Hg. apply flag_of_recover, keeps_sync.
Qed.

#[local] Hint Resolve nc_ret nc_lift nc_gets nc_sync_first_run nc_sync_recover : frame.
#[local] Hint Extern 1 (never_clears _ (modify _)) =>
  (apply nc_modify; intros ? ?; cbn; assumption || reflexivity) : frame.

(** Walks through a computation to show that it never turns a flag
    off. *)
Ltac sticky :=
  repeat first
    [ progress intros
    | solve [eauto with frame]
    | match goal with
      | |- never_clears _ (if ?b then _ else _) => destruct b
      | |- never_clears _ (match ?x with _ => _ end) => destruct x
      | |- never_clears _ (for_each _ _) => apply nc_for_each
      | |- never_clears _ (_ ≫= _) => apply nc_bind
      end ].

Lemma nc_pass_first_run e f : never_clears first_run (pass e f).
Proof.
  unfold pass, prepare, enter, crawl, load_old, dry_pass, report_and_live, save,
    unpack_default, check_exist, write, log, input, print, print_end, run, skip_.
  sticky.
Qed.

Lemma nc_pass_recover e f : never_clears recover (pass e f).
Proof.
  unfold pass, prepare, enter, crawl, load_old, dry_pass, report_and_live, save,
    unpack_default, check_exist, write, log, input, print, print_end, run, skip_.
  sticky.
Qed.

Section loop_more.

(** X19. First-run mode and recovery mode are never left: once either
    flag is set, it is still set after the main loop has gone through any
    list of folders, whatever happens in their passes. *)
Theorem X19_first_run_and_recover_are_sticky
    (folders : list (string * env)) (g : globals) :
  (first_run g = true → first_run (main_loop folders g).2 = true)
  ∧ (recover g = true → recover (main_loop folders g).2 = true).
Proof.
  unfold main_loop. split; intros Hg.
  - apply nc_for_each; [|done]. intros [arg e]. apply nc_pass_first_run.
  - apply nc_for_each; [|done]. intros [arg e]. apply nc_pass_recover.
Qed.

Lemma X19_first_run_and_recover_are_sticky_witness :
  let g := set_first_run true
             (startup false false false false false Scenario.master_two) in
  first_run (main_loop [("cpp", Scenario.world_same)] g).2 = true.
Proof.
  intros g.
  apply (proj1 (X19_first_run_and_recover_are_sticky
                  [("cpp", Scenario.world_same)] g)).
  reflexivity.
Defined.

End loop_more.


Section first_run_more.

Implicit Types (e : env) (g : globals).

(** X20. In first-run mode nothing is classified as deleted. After the
    classification stage of such a pass the local-only partition is the
    paths listed locally and not remotely, the remote-only partition is
    the converse, [inter] is the paths listed on both sides, no path has
    class 2 (deleted) on either side, and the recovery flag is set. *)
Theorem X20_first_run_partitions e (arg : string) g mf g3 :
  prepare e (direct_init arg) g = (Ok mf, g3) →
  first_run g3 = true →
  lcl_dif mf.2 = dom (lsl_lcl e) ∖ dom (lsl_rmt e)
  ∧ rmt_dif mf.2 = dom (lsl_rmt e) ∖ dom (lsl_lcl e)
  ∧ inter mf.2 = dom (lsl_rmt e) ∩ dom (lsl_lcl e)
  ∧ (∀ k, d_dif (lcl mf.2) !! k ≠ Some 2%nat ∧ d_dif (rmt mf.2) !! k ≠ Some 2%nat)
  ∧ recover g3 = true.
Proof.
  intros Hprep Hfr.
  pose proof (prepare_run e (direct_init arg) g) as Hp. unfold returns in Hp.
  rewrite Hprep in Hp. destruct Hp as (_ & _ & _ & _ & Hrec & Hfirst & _).
  destruct (Hfirst Hfr) as (_ & Hl & Hr).
  destruct (build_dif_own_baseline
              (with_d_old (lsl_lcl e) (with_d_tmp (lsl_lcl e) (lcl (direct_init arg)))))
    as (l & Hl' & Hsl & Hkl & _); [done..|].
  destruct (build_dif_own_baseline
              (with_d_old (lsl_rmt e) (with_d_tmp (lsl_rmt e) (rmt (direct_init arg)))))
    as (r & Hr' & Hsr & Hkr & _); [done..|].
  rewrite Hl in Hl'. injection Hl' as <-. rewrite Hr in Hr'. injection Hr' as <-.
  cbn [d_tmp with_d_old with_d_tmp] in Hsl, Hsr, Hkl, Hkr.
  unfold lcl_dif, rmt_dif, inter. rewrite Hsl, Hsr.
  repeat (split; [done|]). split.
  - intros k. rewrite Hkl, Hkr.
    by destruct (lsl_lcl e !! k), (lsl_rmt e !! k).
  - by rewrite Hrec, Hfr, orb_true_r.
Qed.

Lemma X20_first_run_partitions_witness :
  ∃ mf g3,
    prepare Scenario.world_A (direct_init "cpp")
      (startup false false false false false Sinc.empty) = (Ok mf, g3)
    ∧ lcl_dif mf.2 = dom (lsl_lcl Scenario.world_A) ∖ dom (lsl_rmt Scenario.world_A).
Proof.
  destruct (prepare Scenario.world_A (direct_init "cpp")
              (startup false false false false false Sinc.empty))
    as [[mf|x] g3] eqn:Hp; [|by vm_compute in Hp].
  exists mf, g3. split; [reflexivity|].
  apply (X20_first_run_partitions Scenario.world_A "cpp" _ mf g3 Hp).
  pose proof (prepare_run Scenario.world_A (direct_init "cpp")
                (startup false false false false false Sinc.empty)) as Hr.
  unfold returns in Hr. rewrite Hp in Hr.
  destruct Hr as (_ & _ & _ & -> & _). vm_compute. reflexivity.
Defined.

(** X21. The crash check of the classification stage: after it, recovery
    mode is on exactly when it was on before, or the folder's [.tmp] file
    was found, or the pass is in first-run mode; and the pass is in
    first-run mode exactly when first-run mode was on before or [have]
    does not find the folder in the master tree. *)
Theorem X21_when_a_pass_recovers e (f : direct) g mf g3 :
  prepare e f g = (Ok mf, g3) →
  first_run g3 = first_run g || negb (folder_chain (master g) (split (direct_path f)))
  ∧ recover g3 = recover g || tmp_exists e || first_run g3
  ∧ have (master g) (direct_path f)
    = Ok (folder_chain (master g) (split (direct_path f))).
Proof.
  intros Hprep.
  pose proof (prepare_run e f g) as Hp. unfold returns in Hp.
  rewrite Hprep in Hp. destruct Hp as (_ & _ & _ & Hfr & Hrec & _).
  split; [done|]. split; [done|]. apply have_folder_chain.
Qed.

Lemma X21_when_a_pass_recovers_witness :
  ∃ mf g3,
    prepare Scenario.world_A (direct_init "cpp")
      (startup false false false false false Sinc.empty) = (Ok mf, g3)
    ∧ recover g3 = true.
Proof.
  destruct (prepare Scenario.world_A (direct_init "cpp")
              (startup false false false false false Sinc.empty))
    as [[mf|x] g3] eqn:Hp; [|by vm_compute in Hp].
  exists mf, g3. split; [reflexivity|].
  destruct (X21_when_a_pass_recovers Scenario.world_A (direct_init "cpp") _ mf g3 Hp)
    as (Hfr & -> & _).
  rewrite Hfr. vm_compute. reflexivity.
Defined.

End first_run_more.

Section main_more.

Import RsincMain.

Implicit Types (n : nest) (chain folders : list string) (corrupt : string).

(** X22. The [_have] of [rsinc/__main__.py], which tests membership
    before the length of the chain, and the [_have] of [sinc.py], which
    tests the length first, give the same answer on every tree and every
    chain, the empty chain included (both raise [IndexError] there). *)
Theorem X22_both_have_agree n chain :
  RsincMain._have n chain = Sinc._have n chain.
Proof.
  revert n. induction chain as [|c rest IH]; intros n; [done|].
  cbn [RsincMain._have Sinc._have].
  destruct (fold n !! c) as [n'|] eqn:Hc; destruct rest as [|c' rest]; done.
Qed.

(** X23. Every answer to [Execute?] that [sinc.py] understands is given
    the same meaning by [rsinc/__main__.py]: where the dictionary
    [strtobool] of [sinc.py] has the answer as a key, the function
    [strtobool] of [__main__.py] returns the value stored under it. *)
Theorem X23_both_strtobool_agree (reply : string) (b : bool) :
  Sinc.strtobool !! reply = Some b → Rsinc.strtobool reply = b.
Proof.
  assert (map_Forall (λ s b, Rsinc.strtobool s = b) Sinc.strtobool) as H.
  { unfold Sinc.strtobool.
    repeat (apply map_Forall_insert_2; [by vm_compute|]); try apply map_Forall_empty. }
  apply H.
Qed.

Lemma X23_both_strtobool_agree_witness : Rsinc.strtobool "No" = false.
Proof. apply (X23_both_strtobool_agree "No" false). reflexivity. Defined.

Lemma remove_first_Permutation corrupt folders :
  corrupt ∈ folders → corrupt :: remove_first corrupt folders ≡ₚ folders.
Proof.
  induction folders as [|y l IH]; [by intros ?%elem_of_nil|].
  intros Hin. cbn. destruct (decide (y = corrupt)) as [->|Hne]; [done|].
  apply elem_of_cons in Hin as [->|Hin]; [done|].
  rewrite Permutation_swap. by rewrite IH.
Qed.

Lemma remove_first_filter corrupt folders :
  filter (λ f, f ≠ corrupt) (remove_first corrupt folders)
  = filter (λ f, f ≠ corrupt) folders.
Proof.
  induction folders as [|y l IH]; [done|].
  cbn [remove_first]. destruct (decide (y = corrupt)) as [->|Hne].
  - by rewrite filter_cons_False by (by intros ?).
  - by rewrite !filter_cons_True, IH by done.
Qed.

(** X24. Crash detection in [main] of [rsinc/__main__.py]. When the
    temp file names a folder, that folder is processed first and
    recovery mode is on, whatever the flag was; the other folders keep
    their order; if the folder was among those requested, the folders
    processed are the requested ones rearranged (only its first
    occurrence is moved), otherwise it is added in front. Without a
    temp file nothing changes. *)
Theorem X24_crashed_folder_goes_first corrupt (recover : bool) folders :
  (detect_crash (Some corrupt) recover folders).2 = true
  ∧ head (detect_crash (Some corrupt) recover folders).1 = Some corrupt
  ∧ filter (λ f, f ≠ corrupt) (detect_crash (Some corrupt) recover folders).1
    = filter (λ f, f ≠ corrupt) folders
  ∧ (corrupt ∈ folders →
     (detect_crash (Some corrupt) recover folders).1 ≡ₚ folders)
  ∧ (corrupt ∉ folders →
     (detect_crash (Some corrupt) recover folders).1 = corrupt :: folders)
  ∧ detect_crash None recover folders = (folders, recover).
Proof.
  unfold detect_crash. cbn [fst snd head].
  split; [done|]. split; [done|]. split; [|split; [|split; [|done]]].
  - rewrite filter_cons_False by (by intros ?).
    case_bool_decide; [apply remove_first_filter|done].
  - intros Hin. rewrite bool_decide_eq_true_2 by done.
    by apply remove_first_Permutation.
  - intros Hin. by rewrite bool_decide_eq_false_2.
Qed.

End main_more.

Section config_more.

Import Config.

#[local] Arguments String.append !_ _ / : simpl nomatch.


Lemma last_char_Ok (s : string) :
  s ≠ EmptyString → ∃ c, last_char s = Ok c.
Proof.
  induction s as [|a s IH]; [done|]. intros _.
  destruct s as [|b s]; [by exists a|].
  destruct IH as [c Hc]; [done|]. exists c. by rewrite <- Hc.
Qed.




(** X26. The correction of [config_cli] raises exactly on the empty
    answer, where the test of [s[-1]] raises [IndexError]; whatever the
    suffix, it raises nothing else. *)
Theorem X26_root_raises_iff_empty (suffix s : string) :
  match add_trailing suffix s with
  | Ok _ => s ≠ EmptyString
  | Raise x => x = IndexError ∧ s = EmptyString
  end.
Proof.
  destruct s as [|a s]; [done|].
  destruct (last_char_Ok (String a s)) as [x Hx]; [done|].
  unfold add_trailing. rewrite Hx. cbn.
  by repeat case_bool_decide.
Qed.

End config_more.

Section save_more.

Implicit Types (e : env) (f : direct) (g : globals).

(** X27. What [save] stores is what a later pass reads. Outside a dry
    run, [save] never raises; afterwards the master tree has the folder
    chain of [min_path], the branch found there by [get_branch] is the
    packed listing, which flattens to the listing itself, and the tree
    written to [master.json] is the tree now bound to [master]. *)
Theorem X27_save_records_the_listing e f (min_path : string) g :
  dry_run g = false →
  ∃ g' packed,
    save e f min_path g = (Ok (), g')
    ∧ pack (lsl_min e) = Ok packed
    ∧ get_branch (master g') min_path = Ok packed
    ∧ have (master g') min_path = Ok true
    ∧ unpack packed ∅ EmptyString = lsl_min e
    ∧ FileWrite "master.json" (JNest (master g')) ∈ trace g'.
Proof.
  intros Hdry.
  destruct (round_trip_into (master g) min_path (lsl_min e) ∅)
    as (packed & m' & branch & Hp & Hm & Hb & _ & Hu).
  assert (branch = packed) as ->.
  { destruct (_merge_get_branch (master g) (split min_path) packed
                (split_nonempty min_path)) as (m'' & Hm' & Hb').
    unfold merge in Hm. rewrite Hm in Hm'. injection Hm' as <-.
    unfold get_branch in Hb. rewrite Hb in Hb'. by injection Hb' as ->. }
  assert (have m' min_path = Ok true) as Hh.
  { rewrite have_folder_chain. f_equal.
    by apply (_merge_folder_chain (master g) (split min_path) packed). }
  unfold save, print_end, write, log, print, run, skip_, gets, modify, lift,
    mbind, mret, M_bind, M_ret. cbn beta iota.
  rewrite Hp. cbn. rewrite Hm. cbn. rewrite Hdry. cbn.
  destruct (verbosity g); cbn; rewrite ?Hdry; cbn;
    (eexists _, packed; split; [reflexivity|]);
    cbn [set_master master trace emit];
    repeat (split; [done|]); set_solver.
Qed.

Lemma X27_save_records_the_listing_witness :
  ∃ g' packed,
    save Scenario.world_A (direct_init "cpp") "cpp"
      (startup false false false false false Sinc.empty) = (Ok (), g')
    ∧ pack (lsl_min Scenario.world_A) = Ok packed
    ∧ get_branch (master g') "cpp" = Ok packed
    ∧ have (master g') "cpp" = Ok true
    ∧ unpack packed ∅ EmptyString = lsl_min Scenario.world_A
    ∧ FileWrite "master.json" (JNest (master g')) ∈ trace g'.
Proof.
  apply (X27_save_records_the_listing Scenario.world_A (direct_init "cpp") "cpp"
           (startup false false false false false Sinc.empty)).
  reflexivity.
Defined.

End save_more.

Section paths_more.

#[local] Arguments String.append !_ _ / : simpl nomatch.

(** X28. The name of a folder's crash marker: [translate] keeps the
    length of the path, leaves no [/] in it and changes nothing in a
    path without one, so applying it twice is applying it once. Hence
    two folders whose paths differ only in [/] against [_] share one
    [.tmp] file. *)
Theorem X28_tmp_name_collides (arg : string) :
  String.length (translate_swap arg) = String.length arg
  ∧ no_slash (translate_swap arg)
  ∧ translate_swap (translate_swap arg) = translate_swap arg
  ∧ tmp_name (direct_init (translate_swap arg)) = tmp_name (direct_init arg).
Proof.
  assert (translate_swap (translate_swap arg) = translate_swap arg) as Hi.
  { induction arg as [|c s IH]; [done|]. cbn. rewrite IH.
    destruct (decide (c = slash)) as [->|Hc]; [done|].
    by destruct (decide (c = slash)). }
  split; [|split; [|split; [done|]]].
  - clear Hi. induction arg as [|c s IH]; [done|].
    cbn [translate_swap String.length]. by f_equal.
  - clear Hi. induction arg as [|c s IH]; [done|]. cbn [translate_swap no_slash].
    destruct (decide (c = slash)) as [->|Hc]; (split; [done|exact IH]).
  - unfold tmp_name. cbn. by rewrite Hi.
Qed.

End paths_more.

Section jobs_live.

Implicit Types (source dest : string) (g : globals).

(** X29. In a live run each function of the table runs exactly the
    [rclone] commands of its action, in order. A push copies the local
    file over the remote one and a pull the remote file over the local
    one; a conflict overwrites neither: it renames both files and copies
    each under its new name to the other side. *)
Theorem X29_live_commands (a : Action) source dest g :
  dry_run g = false →
  executed (trace (perform a source dest g).2)
  = executed (trace g) ++ commands (skip g) a source dest.
Proof.
  intros Hd.
  destruct a; unfold perform, commands, conflict;
    unfold null, cpyL, cpyR, delL, delR,
      bump_counter, print, run, skip_, gets, modify, mbind, mret, M_bind, M_ret;
    cbn beta iota;
    destruct (skip g) eqn:Hs;
    unfold executed; repeat (cbn; rewrite ?Hd);
    rewrite ?omap_app; cbn; rewrite ?app_nil_r, <- ?app_assoc; reflexivity.
Qed.

Lemma X29_live_commands_witness :
  executed (trace (perform Conflict "l/x" "r:x"
                     (startup false false false false false Sinc.empty)).2)
  = [ ["rclone"; "moveto"; "l/x"; "l/x.lcl_conflict"];
      ["rclone"; "moveto"; "r:x"; "r:x.rmt_conflict"];
      ["rclone"; "copyto"; "l/x.lcl_conflict"; "r:x.lcl_conflict"];
      ["rclone"; "copyto"; "r:x.rmt_conflict"; "l/x.rmt_conflict"] ].
Proof.
  apply (X29_live_commands Conflict "l/x" "r:x"
           (startup false false false false false Sinc.empty)).
  reflexivity.
Defined.

End jobs_live.

Section startup_more.

Import Startup.

#[local] Arguments String.append !_ _ / : simpl nomatch.

Lemma split_app_slash (a r : string) :
  split (a +:+ "/" +:+ r) = split a ++ split r.
Proof.
  induction a as [|c a IH]; [done|].
  simpl in *. case_decide; [by rewrite IH|].
  rewrite IH. by destruct (split_cons a) as (h & t & ->).
Qed.

(** X30. The folder [sinc.py] takes from the working directory. For a
    root [BASE_L] that ends in [/], a working directory below the root
    gives its path relative to the root, whatever that path is, and the
    root itself, written without the final [/], gives the empty string
    (for which the defaults are taken). *)
Theorem X30_relative_cwd (b rest : string) :
  relative_cwd (b +:+ "/") (b +:+ "/" +:+ rest) = rest
  ∧ relative_cwd (b +:+ "/") b = EmptyString.
Proof.
  unfold relative_cwd.
  assert (removelast (split (b +:+ "/")) = split b) as ->.
  { change (b +:+ "/") with (b +:+ "/" +:+ EmptyString).
    rewrite split_app_slash. change (split EmptyString) with [EmptyString].
    apply removelast_last. }
  split.
  - rewrite split_app_slash, drop_app_length. apply join_split.
  - by rewrite drop_all.
Qed.

End startup_more.
